(** * Verification of geomstats geometry primitives

    Shallow embedding of
      - geomstats/geometry/klein_bottle.py
      - geomstats/geometry/positive_lower_triangular_matrices.py
      - geomstats/geometry/symmetric_matrices.py

    Arithmetic is exact.  The Klein bottle code only uses field operations,
    [floor], [abs] and comparisons, so it is embedded over the rationals [Q]
    (every finite float is a rational); equality of coordinates is [Qeq].
    The matrix code uses [exp] and [log] and is embedded over [R]; an array
    is the list of its entries (a matrix the list of its rows). *)

From Stdlib Require Import QArith Qround Qabs ZArith Lia Lqa List Bool.
From Stdlib Require Import Reals.
Import ListNotations.

Module KleinBottle.

Local Open Scope Q_scope.

(** A point of the ambient space: the last axis of the arrays, shape [(2,)]. *)
Definition point : Type := (Q * Q)%type.

(** Coordinatewise numerical equality, the [==] of arrays. *)
Definition point_eq (p q : point) : Prop :=
  fst p == fst q /\ snd p == snd q.

Definition padd (p q : point) : point := (fst p + fst q, snd p + snd q).
Definition psub (p q : point) : point := (fst p - fst q, snd p - snd q).

(** ** Backend primitives used by the source *)

(** Modelled from the spec: [gs.atol], the backend's default absolute
    tolerance (the backend package is not part of the sources). *)
Definition gs_atol : Q := 1 # 1000000000000.

(** Modelled from the spec: [gs.mod], the floored remainder, which has the
    sign of the divisor. *)
Definition gs_mod (x d : Q) : Q := x - d * inject_Z (Qfloor (x / d)).

(** Modelled from the spec: [gs.isclose(x, y, atol)], closeness of two numbers;
    the tolerance the source passes is taken as the absolute tolerance that
    the docstring of [_is_close_mod] documents. *)
Definition isclose (x y atol : Q) : bool := Qle_bool (Qabs (x - y)) atol.

(** Modelled from the spec: [gs.cast(_, gs.int64)] of an integer-valued
    number, two's complement on 64 bits. *)
Definition cast_int64 (z : Z) : Z :=
  ((z + 2 ^ 63) mod 2 ^ 64 - 2 ^ 63)%Z.

(** ** [_is_close_mod] *)
Definition _is_close_mod (array divisor atol : Q) : bool :=
  isclose (Qabs array) 0 atol || isclose (Qabs array) divisor atol.

(** ** [KleinBottle.belongs] *)
Definition belongs (p : point) : bool :=
  (Qle_bool 0 (fst p) && Qle_bool (fst p) 1)
  && (Qle_bool 0 (snd p) && Qle_bool (snd p) 1).

(** ** [KleinBottle.equivalent] *)
Definition equivalent (point_a point_b : point) (atol : Q) : bool :=
  let x_diff := fst point_a - fst point_b in
  let y_diff := snd point_a - snd point_b in
  let y_sum := snd point_a + snd point_b in
  let un_mirrored :=
    _is_close_mod (gs_mod x_diff 2) 2 atol
    && _is_close_mod (gs_mod y_diff 1) 1 atol in
  let mirrored :=
    _is_close_mod (gs_mod (x_diff - 1) 2) 2 atol
    && _is_close_mod (gs_mod y_sum 1) 1 atol in
  un_mirrored || mirrored.

(** ** [KleinBottle.regularize] *)
Definition regularize (p : point) : point :=
  let num_steps := cast_int64 (Z.abs (Qfloor (fst p))) in
  let x_canonical := gs_mod (fst p) 1 in
  let y_canonical_even := gs_mod (snd p) 1 in
  let y_canonical_odd := gs_mod (1 - y_canonical_even) 1 in
  let point_even := (x_canonical, y_canonical_even) in
  let point_odd := (x_canonical, y_canonical_odd) in
  if (num_steps mod 2 =? 0)%Z then point_even else point_odd.

(** ** [KleinBottleMetric.exp] *)
Definition exp (tangent_vec base_point : point) : point :=
  let base_point_canonical := regularize base_point in
  let pt := padd base_point_canonical tangent_vec in
  regularize pt.

(** Squared Euclidean distance, [gs.sum((a - b) ** 2, axis=-1)]. *)
Definition sq_dist (a b : point) : Q :=
  (fst a - fst b) * (fst a - fst b) + (snd a - snd b) * (snd a - snd b).

(** [gs.argmin]: index of the first minimal entry. [best_i] and [best] are the
    index and value of the minimum so far, [i] the index of the head. *)
Fixpoint argmin_from (best_i : nat) (best : Q) (i : nat) (l : list Q) : nat :=
  match l with
  | [] => best_i
  | v :: t =>
      if Qle_bool best v then argmin_from best_i best (S i) t
      else argmin_from i v (S i) t
  end.

Definition argmin (l : list Q) : nat :=
  match l with
  | [] => O
  | v :: t => argmin_from O v 1%nat t
  end.

(** The nine candidates [p2_total] of [_closest_representative], in the
    order in which the source stacks them. *)
Definition p2_total (p2 : point) : list point :=
  let p2_2 := (fst p2, snd p2 - 1) in
  let p2_3 := (fst p2, snd p2 + 1) in
  let p2_4 := (fst p2 + 1, 1 - snd p2) in
  let p2_5 := (fst p2 + 1, 2 - snd p2) in
  let p2_6 := (fst p2 + 1, 0 - snd p2) in
  let p2_7 := (fst p2 - 1, 1 - snd p2) in
  let p2_8 := (fst p2 - 1, 2 - snd p2) in
  let p2_9 := (fst p2 - 1, 0 - snd p2) in
  [p2; p2_2; p2_3; p2_4; p2_5; p2_6; p2_7; p2_8; p2_9].

(** ** [KleinBottleMetric._closest_representative], one batch element *)
Definition _closest_representative (point1 point2 : point) : point * point :=
  let p1 := regularize point1 in
  let p2 := regularize point2 in
  let total := p2_total p2 in
  let index := argmin (map (fun c => sq_dist c p1) total) in
  let minimizer := nth index total p2 in
  (p1, minimizer).

(** ** [KleinBottleMetric.log] *)
Definition log (pt base_point : point) : point :=
  let '(base_point_canonical, point_minimal) :=
    _closest_representative base_point pt in
  psub point_minimal base_point_canonical.

(** ** Batches

    A batch is the list of its elements (the source itself flattens batches
    with [reshape(-1, 2)]); every operation acts elementwise.  A base point of
    [ndim == 1] is broadcast against a batch of tangent vectors or points. *)
Definition regularize_batch (ps : list point) : list point := map regularize ps.

Definition exp_batch (tangent_vecs base_points : list point) : list point :=
  map (fun tb => exp (fst tb) (snd tb)) (combine tangent_vecs base_points).

Definition log_batch (pts base_points : list point) : list point :=
  map (fun pb => log (fst pb) (snd pb)) (combine pts base_points).

Definition exp_broadcast (tangent_vecs : list point) (base_point : point)
  : list point :=
  map (fun t => exp t base_point) tangent_vecs.

Definition log_broadcast (pts : list point) (base_point : point) : list point :=
  map (fun p => log p base_point) pts.

(** ** [KleinBottleMetric.injectivity_radius] and
    [KleinBottleMetric.inner_product] ([gs.dot] of two vectors of shape
    [(2,)]) *)
Definition injectivity_radius (base_point : point) : Q := 1 # 2.

Definition inner_product (tangent_vec_a tangent_vec_b : point) : Q :=
  fst tangent_vec_a * fst tangent_vec_b + snd tangent_vec_a * snd tangent_vec_b.

(** ** Specification-side notions *)

(** [v] is within [atol] of a multiple of [d]. *)
Definition within_multiple (atol d v : Q) : Prop :=
  exists k : Z, Qabs (v - d * inject_Z k) <= atol.

(** [v] is, within [atol], an integer, an even integer, an odd integer. *)
Definition is_integer_within (atol v : Q) : Prop :=
  exists k : Z, Qabs (v - inject_Z k) <= atol.

Definition is_even_integer_within (atol v : Q) : Prop :=
  exists k : Z, Qabs (v - inject_Z (2 * k)) <= atol.

Definition is_odd_integer_within (atol v : Q) : Prop :=
  exists k : Z, Qabs (v - inject_Z (2 * k + 1)) <= atol.

(** The equivalence relation of the class docstring:
    [(x1,y1) ~ (x2,y2)] iff [y1 - y2] is an integer and [x1 - x2] is even, or
    [y1 + y2] is an integer and [x1 - x2] is odd. *)
Definition klein_equiv (a b : point) : Prop :=
  (exists k m : Z,
      fst a - fst b == inject_Z (2 * k) /\ snd a - snd b == inject_Z m)
  \/ (exists k m : Z,
      fst a - fst b == inject_Z (2 * k + 1) /\ snd a + snd b == inject_Z m).

(** The tangent vector [t] reflected in its second coordinate, as a glide
    reflection of the bottle acts on it. *)
Definition mirror_y (t : point) : point := (fst t, - snd t).

(** The half-open fundamental domain in which [regularize] lands. *)
Definition in_unit_square (p : point) : Prop :=
  (0 <= fst p /\ fst p < 1) /\ (0 <= snd p /\ snd p < 1).

End KleinBottle.

(** * information_geometry/geometric.py: the parameter space *)

Module GeometricDistributions.

Local Open Scope Q_scope.

(** A point has shape [(1,)]: one parameter. *)

(** [gs.cast(_, point.dtype)] of a boolean. *)
Definition cast_bool (b : bool) : Q := if b then 1 else 0.

Definition Qlt_bool (x y : Q) : bool := negb (Qle_bool y x).

(** ** [GeometricDistributions.belongs], for a point of the right shape *)
Definition belongs (point atol : Q) : bool :=
  Qle_bool (- atol) point && Qle_bool point (1 + atol).

(** ** [GeometricDistributions.projection] *)
Definition projection (point atol : Q) : Q :=
  if Qlt_bool point atol || Qlt_bool (1 - atol) point
  then (1 - atol) * cast_bool (Qlt_bool (1 - atol) point)
       + atol * cast_bool (Qlt_bool point atol)
  else point.

(** ** The [pmf] returned by [GeometricDistributions.point_to_pdf], at one
    integer [k] of the sample space *)
Definition pmf (point : Q) (k : Z) : Q := (1 - point) ^ (k - 1) * point.

(** [pmf point 1 + ... + pmf point n]. *)
Fixpoint pmf_sum (point : Q) (n : nat) : Q :=
  match n with
  | O => 0
  | S j => pmf_sum point j + pmf point (Z.of_nat (S j))
  end.

End GeometricDistributions.

(** * Arrays: the part of the numerical backend the matrix code uses *)

Module Arrays.

Local Open Scope R_scope.

Definition vec : Type := list R.
Definition mat : Type := list (list R).

Definition vnth (v : vec) (i : nat) : R := nth i v 0.
Definition entry (m : mat) (i j : nat) : R := nth j (nth i m []) 0.

(** The array of shape [(n,)], resp. [(n, n)], with the given entries. *)
Definition mk_vec (n : nat) (f : nat -> R) : vec := map f (seq 0 n).
Definition mk_mat (n : nat) (f : nat -> nat -> R) : mat :=
  map (fun i => mk_vec n (f i)) (seq 0 n).

(** Shape [(n, n)]. *)
Definition is_square (n : nat) (m : mat) : Prop :=
  length m = n /\ Forall (fun row => length row = n) m.

(** Elementwise operations on arrays of one shape. *)
Definition vmap (f : R -> R) (v : vec) : vec := map f v.
Definition vzip (op : R -> R -> R) (a b : vec) : vec :=
  mk_vec (length a) (fun i => op (vnth a i) (vnth b i)).
Definition mmap (f : R -> R) (m : mat) : mat := map (map f) m.
Definition mzip (op : R -> R -> R) (a b : mat) : mat :=
  mk_mat (length a) (fun i j => op (entry a i j) (entry b i j)).

(** [gs.sum] over all axes. *)
Definition vsum (v : vec) : R := fold_right Rplus 0 v.
Definition msum (m : mat) : R := vsum (map vsum m).

(** Modelled from the spec: [gs.exp], [gs.log], [gs.divide]. *)
Definition gs_exp : R -> R := Rtrigo_def.exp.
Definition gs_log : R -> R := ln.
Definition gs_divide : R -> R -> R := Rdiv.

(** Modelled from the spec: [gs.ones], [gs.eye]. *)
Definition ones (n : nat) : mat := mk_mat n (fun _ _ => 1).
Definition eye (n : nat) : mat :=
  mk_mat n (fun i j => if (i =? j)%nat then 1 else 0).

(** Modelled from the spec: [gs.vec_to_diag]. *)
Definition vec_to_diag (v : vec) : mat :=
  mk_mat (length v) (fun i j => if (i =? j)%nat then vnth v i else 0).

(** Modelled from the spec: [gs.tril(mat, k=-1)], the entries strictly below
    the diagonal, zero elsewhere. *)
Definition tril_below (m : mat) : mat :=
  mk_mat (length m) (fun i j => if (j <? i)%nat then entry m i j else 0).

(** Modelled from the spec: [gs.flip(_, axis=-1)]. *)
Definition flip (v : vec) : vec := rev v.

(** Modelled from the spec: [gs.concatenate] (the backend is not part of the
    sources); like numpy's, it raises [ValueError] on an empty sequence of
    arrays, which is [None] here. *)
Definition concatenate (vs : list vec) : option vec :=
  match vs with
  | [] => None
  | _ :: _ => Some (concat vs)
  end.

(** Modelled from the spec: [gs.tril_indices(n)] and [gs.triu_indices(n)],
    zipped: the index pairs of the lower, resp. upper, triangle in row-major
    order. *)
Definition tril_indices (n : nat) : list (nat * nat) :=
  flat_map (fun i => map (fun j => (i, j)) (seq 0 (S i))) (seq 0 n).
Definition triu_indices (n : nat) : list (nat * nat) :=
  flat_map (fun i => map (fun j => (i, j)) (seq i (n - i))) (seq 0 n).

(** Python's [sorted(_, key=lambda x: x[0], reverse=True)]: a stable sort by
    decreasing row; elements with equal keys keep their order. *)
Fixpoint insert_desc (x : nat * nat) (l : list (nat * nat))
  : list (nat * nat) :=
  match l with
  | [] => [x]
  | y :: t => if (fst y <? fst x)%nat then x :: y :: t
              else y :: insert_desc x t
  end.
Definition sorted_desc (l : list (nat * nat)) : list (nat * nat) :=
  fold_left (fun acc x => insert_desc x acc) l [].

(** Modelled from the spec: [gs.array_from_sparse(indices, data, (n, n))], the
    dense array that is zero except for [data[k]] at [indices[k]]: the pairs
    are written one after the other into an array of zeros.  The model gives
    no result when the two lists differ in length or an index lies outside the
    shape. *)
Definition assign (a : nat -> nat -> R) (p : (nat * nat) * R)
  : nat -> nat -> R :=
  fun i j =>
    if ((i =? fst (fst p)) && (j =? snd (fst p)))%nat then snd p else a i j.
Definition array_from_sparse (indices : list (nat * nat)) (data : vec)
           (n : nat) : option mat :=
  if ((length indices =? length data)%nat
      && forallb (fun ij => (fst ij <? n) && (snd ij <? n))%nat indices)%bool
  then Some (mk_mat n (fold_left assign (combine indices data)
                         (fun _ _ => 0)))
  else None.

(** Whether the index pair [(i, j)] occurs in a list of index pairs. *)
Definition mem (i j : nat) (l : list (nat * nat)) : bool :=
  existsb (fun ij => (i =? fst ij) && (j =? snd ij))%nat l.

(** Row [i] of the lower triangle as index pairs, and the lower-triangular
    index pairs by decreasing row: what sorting [tril_indices] gives. *)
Definition tril_row (i : nat) : list (nat * nat) :=
  map (fun j => (i, j)) (seq 0 (S i)).
Definition tril_indices_desc (n : nat) : list (nat * nat) :=
  flat_map tril_row (rev (seq 0 n)).

(** Modelled from the spec: [gs.triu_to_vec], the entries of the upper
    triangle in row-major order. *)
Definition triu_to_vec (m : mat) : vec :=
  map (fun ij => entry m (fst ij) (snd ij)) (triu_indices (length m)).

(** Modelled from the spec: [gs.tril_indices(n, k=-1)] zipped, and
    [gs.tril_to_vec(mat, k=-1)]: the entries strictly below the diagonal in
    row-major order. *)
Definition tril_indices_strict (n : nat) : list (nat * nat) :=
  flat_map (fun i => map (fun j => (i, j)) (seq 0 i)) (seq 0 n).
Definition tril_to_vec_strict (m : mat) : vec :=
  map (fun ij => entry m (fst ij) (snd ij)) (tril_indices_strict (length m)).

(** Modelled from the spec: [gs.dot] of two vectors. *)
Definition dot (a b : vec) : R := vsum (vzip Rmult a b).

(** Modelled from the spec: [gs.atol], the default tolerance, and
    [gs.where(v < gs.atol, gs.atol, v)] on one entry. *)
Definition gs_atol : R := / 10 ^ 12.
Definition floor_at_atol (x : R) : R :=
  if Rlt_dec x gs_atol then gs_atol else x.

(** Modelled from the spec: [gs.zeros((n, n))]. *)
Definition zeros (n : nat) : mat := mk_mat n (fun _ _ => 0).

(** Modelled from the spec: [gs.arctanh], the inverse hyperbolic tangent on
    [(-1, 1)]. *)
Definition gs_arctanh (x : R) : R := ln ((1 + x) / (1 - x)) / 2.

(** Predicates of the specification. *)
Definition is_lower_triangular (n : nat) (m : mat) : Prop :=
  forall i j, (i < j)%nat -> (j < n)%nat -> entry m i j = 0.
Definition has_positive_diagonal (n : nat) (m : mat) : Prop :=
  forall i, (i < n)%nat -> 0 < entry m i i.
Definition is_symmetric (n : nat) (m : mat) : Prop :=
  forall i j, (i < n)%nat -> (j < n)%nat -> entry m i j = entry m j i.

(** Finite sum [f 0 + ... + f (n-1)]. *)
Fixpoint sum_upto (n : nat) (f : nat -> R) : R :=
  match n with
  | O => 0
  | S k => sum_upto k f + f k
  end.

End Arrays.

(** * [geomstats.geometry.matrices.Matrices], the methods used here *)

Module Matrices.
Import Arrays.
Local Open Scope R_scope.

(** Modelled from the spec: [Matrices.diagonal]. *)
Definition diagonal (m : mat) : vec :=
  mk_vec (length m) (fun i => entry m i i).

(** Modelled from the spec: [Matrices.to_strictly_lower_triangular]. *)
Definition to_strictly_lower_triangular (m : mat) : mat := tril_below m.

(** Modelled from the spec: [Matrices.transpose]. *)
Definition transpose (m : mat) : mat :=
  mk_mat (length m) (fun i j => entry m j i).

(** Modelled from the spec: [Matrices.to_symmetric], the average of a matrix
    and its transpose. *)
Definition to_symmetric (m : mat) : mat :=
  mmap (fun x => x / 2) (mzip Rplus m (transpose m)).

(** Modelled from the spec: [Matrices.frobenius_product], the sum of the
    entrywise products. *)
Definition frobenius_product (a b : mat) : R := msum (mzip Rmult a b).

End Matrices.

(** * positive_lower_triangular_matrices.py *)

Module PositiveLowerTriangularMatrices.
Import Arrays Matrices.
Local Open Scope R_scope.

(** ** [PositiveLowerTriangularMatrices.projection] *)
Definition projection (pt : mat) : mat :=
  let vec_diag := vmap Rabs (diagonal pt) in
  let vec_diag := vmap floor_at_atol vec_diag in
  let diag := vec_to_diag vec_diag in
  let strictly_lower_triangular := tril_below pt in
  mzip Rplus diag strictly_lower_triangular.

End PositiveLowerTriangularMatrices.

Module CholeskyMetric.
Import Arrays Matrices.
Local Open Scope R_scope.

(** ** [CholeskyMetric.exp] *)
Definition exp (tangent_vec base_point : mat) : mat :=
  let sl_base_point := to_strictly_lower_triangular base_point in
  let sl_tangent_vec := to_strictly_lower_triangular tangent_vec in
  let diag_base_point := diagonal base_point in
  let diag_tangent_vec := diagonal tangent_vec in
  let diag_product_expm :=
    vmap gs_exp (vzip gs_divide diag_tangent_vec diag_base_point) in
  let sl_exp := mzip Rplus sl_base_point sl_tangent_vec in
  let diag_exp := vec_to_diag (vzip Rmult diag_base_point diag_product_expm) in
  mzip Rplus sl_exp diag_exp.

(** ** [CholeskyMetric.log] *)
Definition log (pt base_point : mat) : mat :=
  let sl_base_point := to_strictly_lower_triangular base_point in
  let sl_point := to_strictly_lower_triangular pt in
  let diag_base_point := diagonal base_point in
  let diag_point := diagonal pt in
  let diag_product_logm :=
    vmap gs_log (vzip gs_divide diag_point diag_base_point) in
  let sl_log := mzip Rminus sl_point sl_base_point in
  let diag_log := vec_to_diag (vzip Rmult diag_base_point diag_product_logm) in
  mzip Rplus sl_log diag_log.

(** ** [CholeskyMetric.squared_dist] *)
Definition squared_dist (point_a point_b : mat) : R :=
  let log_diag_a := vmap gs_log (diagonal point_a) in
  let log_diag_b := vmap gs_log (diagonal point_b) in
  let diag_diff := vzip Rminus log_diag_a log_diag_b in
  let squared_dist_diag := vsum (vmap (fun x => x ^ 2) diag_diff) in
  let sl_a := to_strictly_lower_triangular point_a in
  let sl_b := to_strictly_lower_triangular point_b in
  let sl_diff := mzip Rminus sl_a sl_b in
  let squared_dist_sl := frobenius_product sl_diff sl_diff in
  squared_dist_sl + squared_dist_diag.

(** The closed form in the words of the specification: the sum of the squared
    differences of the logarithms of the diagonals, plus the squared Frobenius
    norm of the difference of the strictly lower triangular parts. *)
Definition squared_dist_closed_form (n : nat) (a b : mat) : R :=
  sum_upto n (fun i => (ln (entry a i i) - ln (entry b i i)) ^ 2)
  + sum_upto n (fun i =>
      sum_upto i (fun j => (entry a i j - entry b i j) ^ 2)).

(** ** [CholeskyMetric.diag_inner_product] *)
Definition diag_inner_product (tangent_vec_a tangent_vec_b base_point : mat)
  : R :=
  let inv_sqrt_diagonal :=
    vmap (fun x => powerRZ x (-2)) (diagonal base_point) in
  let tangent_vec_a_diagonal := diagonal tangent_vec_a in
  let tangent_vec_b_diagonal := diagonal tangent_vec_b in
  let prod :=
    vzip Rmult (vzip Rmult tangent_vec_a_diagonal tangent_vec_b_diagonal)
      inv_sqrt_diagonal in
  vsum prod.

(** ** [CholeskyMetric.strictly_lower_inner_product] *)
Definition strictly_lower_inner_product (tangent_vec_a tangent_vec_b : mat)
  : R :=
  let sl_tagnet_vec_a := tril_to_vec_strict tangent_vec_a in
  let sl_tagnet_vec_b := tril_to_vec_strict tangent_vec_b in
  let ip_sl := dot sl_tagnet_vec_a sl_tagnet_vec_b in
  ip_sl.

(** ** [CholeskyMetric.inner_product] *)
Definition inner_product (tangent_vec_a tangent_vec_b base_point : mat) : R :=
  diag_inner_product tangent_vec_a tangent_vec_b base_point
  + strictly_lower_inner_product tangent_vec_a tangent_vec_b.

End CholeskyMetric.

Module UnitNormedRowsPLTDiffeo.
Import Arrays.
Local Open Scope R_scope.

(** ** [UnitNormedRowsPLTDiffeo.diffeomorphism], for [self.n = n] *)
Definition diffeomorphism (n : nat) (base_point : mat) : option vec :=
  concatenate
    (map (fun i => flip (firstn (i + 1) (nth i base_point [])))
       (seq 1 (n - 1))).

(** ** [UnitNormedRowsPLTDiffeo._from_product_to_mat], empty batch shape *)
Definition _from_product_to_mat (n : nat) (v : vec) (ones : bool)
  : option mat :=
  let flipped_vec := flip v in
  let first := [if ones then 1 else 0] in
  let flipped_vec_ := flipped_vec ++ first in
  let indices := sorted_desc (tril_indices n) in
  array_from_sparse indices flipped_vec_ n.

(** ** [inverse_diffeomorphism], [tangent_diffeomorphism],
    [inverse_tangent_diffeomorphism] *)
Definition inverse_diffeomorphism (n : nat) (image_point : vec) : option mat :=
  _from_product_to_mat n image_point true.

Definition tangent_diffeomorphism (n : nat) (tangent_vec : mat) : option vec :=
  diffeomorphism n tangent_vec.

Definition inverse_tangent_diffeomorphism (n : nat) (image_tangent_vec : vec)
  : option mat :=
  _from_product_to_mat n image_tangent_vec false.

(** Composition of two fallible steps. *)
Definition bind {A B : Type} (x : option A) (f : A -> option B) : option B :=
  match x with
  | Some a => f a
  | None => None
  end.

End UnitNormedRowsPLTDiffeo.

(** * symmetric_matrices.py *)

Module SymmetricMatrices.
Import Arrays Matrices.
Local Open Scope R_scope.

(** ** [SymmetricMatrices.basis_representation] *)
Definition basis_representation (matrix_representation : mat) : vec :=
  triu_to_vec matrix_representation.

(** [mat_dim = (sqrt(8 * vec_dim + 1) - 1) / 2], and whether it is an integer:
    it is one exactly when [8 * vec_dim + 1] is a perfect square, whose root is
    then odd. *)
Definition mat_dim_of (vec_dim : nat) : option nat :=
  let s := Nat.sqrt (8 * vec_dim + 1) in
  if (s * s =? 8 * vec_dim + 1)%nat then Some ((s - 1) / 2)%nat else None.

(** ** [SymmetricMatrices.matrix_representation], one vector ([ndim == 1]);
    [None] is the [ValueError] of the source. *)
Definition matrix_representation (basis_representation : vec) : option mat :=
  let vec_dim := length basis_representation in
  match mat_dim_of vec_dim with
  | None => None
  | Some mat_dim =>
      let mask := mzip Rminus (mmap (fun x => 2 * x) (ones mat_dim))
                    (eye mat_dim) in
      let indices := triu_indices mat_dim in
      match array_from_sparse indices basis_representation mat_dim with
      | None => None
      | Some upper_triangular =>
          Some (mzip Rmult (to_symmetric upper_triangular) mask)
      end
  end.

(** ** [SymmetricMatrices.projection] *)
Definition projection (pt : mat) : mat := to_symmetric pt.

End SymmetricMatrices.

(** * information_geometry/geometric.py: the Fisher metric *)

Module GeometricMetric.
Import Arrays.
Local Open Scope R_scope.

(** A point and a tangent vector have shape [(1,)]: one real number. *)

(** ** [GeometricMetric.squared_dist] *)
Definition squared_dist (point_a point_b : R) : R :=
  4 * (gs_arctanh (sqrt (1 - point_a)) - gs_arctanh (sqrt (1 - point_b))) ^ 2.

(** ** [GeometricMetric.metric_matrix], its single entry *)
Definition metric_matrix (base_point : R) : R :=
  1 / (base_point ^ 2 * (1 - base_point)).

(** ** [GeometricMetric._geodesic_path], at one time [t] *)
Definition _geodesic_path (t frequency initial_phase : R) : R :=
  1 - tanh (frequency * t + initial_phase) ^ 2.

(** ** [GeometricMetric._geodesic_ivp] *)
Definition _geodesic_ivp (initial_point initial_tangent_vec : R) : R -> R :=
  let initial_phase := gs_arctanh (sqrt (1 - initial_point)) in
  let frequency :=
    - initial_tangent_vec / (2 * initial_point * sqrt (1 - initial_point)) in
  fun t => _geodesic_path t frequency initial_phase.

(** ** [GeometricMetric._geodesic_bvp] *)
Definition _geodesic_bvp (initial_point end_point : R) : R -> R :=
  let initial_phase := gs_arctanh (sqrt (1 - initial_point)) in
  let frequency := gs_arctanh (sqrt (1 - end_point)) - initial_phase in
  fun t => _geodesic_path t frequency initial_phase.

(** ** [GeometricMetric.exp] *)
Definition exp (tangent_vec base_point : R) : R :=
  1 - tanh (- tangent_vec / (2 * base_point * sqrt (1 - base_point))
            + gs_arctanh (sqrt (1 - base_point))) ^ 2.

(** ** [GeometricMetric.log] *)
Definition log (pt base_point : R) : R :=
  -2 * base_point * sqrt (1 - base_point)
  * (gs_arctanh (sqrt (1 - pt)) - gs_arctanh (sqrt (1 - base_point))).

End GeometricMetric.

(** * Klein bottle: facts *)

Module KleinBottleFacts.
Import KleinBottle.
Local Open Scope Q_scope.

Ltac push_inj :=
  unfold Z.sub in *;
  repeat (rewrite ?inject_Z_plus, ?inject_Z_mult, ?inject_Z_opp in * );
  change (inject_Z 1) with 1 in *; change (inject_Z 2) with 2 in *;
  change (inject_Z 0) with 0 in *; change (inject_Z (-1)) with (-1 # 1) in *.

Lemma gs_mod_bounds (x d : Q) : 0 < d -> 0 <= gs_mod x d /\ gs_mod x d < d.
Proof.
  intros Hd. unfold gs_mod.
  pose proof (Qfloor_le (x / d)) as H1.
  pose proof (Qlt_floor (x / d)) as H2.
  rewrite inject_Z_plus in H2.
  assert (Hx : d * (x / d) == x) by (apply Qmult_div_r; lra).
  set (f := inject_Z (Qfloor (x / d))) in *.
  set (t := x / d) in *. clearbody f t.
  change (inject_Z 1) with 1 in H2.
  split; nra.
Qed.

Lemma isclose_iff x y atol :
  isclose x y atol = true <-> - atol <= x - y /\ x - y <= atol.
Proof. unfold isclose. rewrite Qle_bool_iff. apply Qabs_Qle_condition. Qed.

Lemma Zge1_Q (j : Z) : (1 <= j)%Z -> 1 <= inject_Z j.
Proof. intros H. rewrite Zle_Qle in H. exact H. Qed.

Lemma Zle0_Q (j : Z) : (j <= 0)%Z -> inject_Z j <= 0.
Proof. intros H. rewrite Zle_Qle in H. exact H. Qed.

Lemma is_close_mod_spec (atol d v : Q) :
  0 < d ->
  _is_close_mod (gs_mod v d) d atol = true <-> within_multiple atol d v.
Proof.
  intros Hd. unfold _is_close_mod, within_multiple.
  destruct (gs_mod_bounds v d Hd) as [Hr0 Hrd].
  rewrite orb_true_iff, !isclose_iff.
  assert (Habs : Qabs (gs_mod v d) == gs_mod v d) by (apply Qabs_pos; exact Hr0).
  rewrite Habs. unfold gs_mod in *.
  set (f := Qfloor (v / d)) in *. clearbody f.
  split.
  - intros [[Ha Hb] | [Ha Hb]].
    + exists f. apply Qabs_Qle_condition. split; lra.
    + exists (f + 1)%Z. apply Qabs_Qle_condition. push_inj. split; lra.
  - intros [k Hk]. apply Qabs_Qle_condition in Hk. destruct Hk as [Hk1 Hk2].
    destruct (Z_le_gt_dec (k - f) 0) as [Hj | Hj].
    + left. apply Zle0_Q in Hj. push_inj.
      set (K := inject_Z k) in *. set (F := inject_Z f) in *. clearbody K F.
      split; nra.
    + right. assert (Hj' : (1 <= k - f)%Z) by lia. apply Zge1_Q in Hj'. push_inj.
      set (K := inject_Z k) in *. set (F := inject_Z f) in *. clearbody K F.
      split; nra.
Qed.

Lemma wm_shift (atol d v w : Q) (m : Z) :
  w == v + d * inject_Z m -> within_multiple atol d v -> within_multiple atol d w.
Proof.
  intros Hw [k Hk]. exists (k + m)%Z.
  apply Qabs_Qle_condition in Hk. apply Qabs_Qle_condition.
  push_inj. split; lra.
Qed.

Lemma wm_opp (atol d v w : Q) (m : Z) :
  w == - v + d * inject_Z m -> within_multiple atol d v -> within_multiple atol d w.
Proof.
  intros Hw [k Hk]. exists (m - k)%Z.
  apply Qabs_Qle_condition in Hk. apply Qabs_Qle_condition.
  push_inj. split; lra.
Qed.

Lemma wm_shift_iff (atol d v w : Q) (m : Z) :
  w == v + d * inject_Z m -> within_multiple atol d v <-> within_multiple atol d w.
Proof.
  intros Hw. split; [apply (wm_shift _ _ _ _ m); exact Hw |].
  apply (wm_shift _ _ _ _ (- m)). push_inj. lra.
Qed.

Lemma wm_opp_iff (atol d v w : Q) (m : Z) :
  w == - v + d * inject_Z m -> within_multiple atol d v <-> within_multiple atol d w.
Proof.
  intros Hw. split; [apply (wm_opp _ _ _ _ m); exact Hw |].
  apply (wm_opp _ _ _ _ m). lra.
Qed.

Lemma equivalent_spec (a b : point) (atol : Q) :
  equivalent a b atol = true <->
  (within_multiple atol 2 (fst a - fst b) /\ within_multiple atol 1 (snd a - snd b))
  \/ (within_multiple atol 2 (fst a - fst b - 1) /\ within_multiple atol 1 (snd a + snd b)).
Proof.
  unfold equivalent. cbv zeta.
  rewrite orb_true_iff, !andb_true_iff.
  rewrite !is_close_mod_spec by reflexivity. tauto.
Qed.

Lemma equivalent_sym (a b : point) (atol : Q) :
  equivalent a b atol = equivalent b a atol.
Proof.
  apply eq_true_iff_eq. rewrite !equivalent_spec.
  rewrite (wm_opp_iff atol 2 (fst a - fst b) (fst b - fst a) 0) by (push_inj; lra).
  rewrite (wm_opp_iff atol 1 (snd a - snd b) (snd b - snd a) 0) by (push_inj; lra).
  rewrite (wm_opp_iff atol 2 (fst a - fst b - 1) (fst b - fst a - 1) (-1)) by (push_inj; lra).
  rewrite (wm_shift_iff atol 1 (snd a + snd b) (snd b + snd a) 0) by (push_inj; lra).
  tauto.
Qed.

Lemma equivalent_compat_l (a a' b : point) (atol : Q) :
  klein_equiv a a' -> equivalent a b atol = equivalent a' b atol.
Proof.
  intros H. apply eq_true_iff_eq. rewrite !equivalent_spec.
  destruct H as [(k & m & Hx & Hy) | (k & m & Hx & Hy)]; push_inj.
  - rewrite (wm_shift_iff atol 2 (fst a - fst b) (fst a' - fst b) (- k)) by (push_inj; lra).
    rewrite (wm_shift_iff atol 1 (snd a - snd b) (snd a' - snd b) (- m)) by (push_inj; lra).
    rewrite (wm_shift_iff atol 2 (fst a - fst b - 1) (fst a' - fst b - 1) (- k)) by (push_inj; lra).
    rewrite (wm_shift_iff atol 1 (snd a + snd b) (snd a' + snd b) (- m)) by (push_inj; lra).
    tauto.
  - rewrite (wm_shift_iff atol 2 (fst a - fst b) (fst a' - fst b - 1) (- k - 1)) by (push_inj; lra).
    rewrite (wm_opp_iff atol 1 (snd a - snd b) (snd a' + snd b) m) by (push_inj; lra).
    rewrite (wm_shift_iff atol 2 (fst a - fst b - 1) (fst a' - fst b) (- k)) by (push_inj; lra).
    rewrite (wm_opp_iff atol 1 (snd a + snd b) (snd a' - snd b) m) by (push_inj; lra).
    tauto.
Qed.

Lemma equivalent_compat (a a' b b' : point) (atol : Q) :
  klein_equiv a a' -> klein_equiv b b' ->
  equivalent a b atol = equivalent a' b' atol.
Proof.
  intros Ha Hb.
  rewrite (equivalent_compat_l a a' b atol Ha).
  rewrite (equivalent_sym a' b), (equivalent_compat_l b b' a' atol Hb).
  apply equivalent_sym.
Qed.

(* --- klein_equiv is an equivalence --- *)
Lemma point_eq_klein_equiv (a b : point) : point_eq a b -> klein_equiv a b.
Proof.
  intros [Hx Hy]. left. exists 0%Z, 0%Z. push_inj. split; lra.
Qed.

Lemma klein_equiv_refl (a : point) : klein_equiv a a.
Proof. apply point_eq_klein_equiv. split; reflexivity. Qed.

Lemma klein_equiv_sym (a b : point) : klein_equiv a b -> klein_equiv b a.
Proof.
  intros [(k & m & Hx & Hy) | (k & m & Hx & Hy)]; push_inj.
  - left. exists (- k)%Z, (- m)%Z. push_inj. split; lra.
  - right. exists (- k - 1)%Z, m. push_inj. split; lra.
Qed.

Lemma klein_equiv_trans (a b c : point) :
  klein_equiv a b -> klein_equiv b c -> klein_equiv a c.
Proof.
  intros [(k & m & Hx & Hy) | (k & m & Hx & Hy)]
         [(k' & m' & Hx' & Hy') | (k' & m' & Hx' & Hy')]; push_inj.
  - left. exists (k + k')%Z, (m + m')%Z. push_inj. split; lra.
  - right. exists (k + k')%Z, (m + m')%Z. push_inj. split; lra.
  - right. exists (k + k')%Z, (m - m')%Z. push_inj. split; lra.
  - left. exists (k + k' + 1)%Z, (m - m')%Z. push_inj. split; lra.
Qed.

Lemma within_multiple_zero (d v : Q) :
  within_multiple 0 d v <-> exists k : Z, v == d * inject_Z k.
Proof.
  unfold within_multiple. split; intros [k Hk]; exists k.
  - apply Qabs_Qle_condition in Hk. lra.
  - apply Qabs_Qle_condition. lra.
Qed.

Lemma equivalent_exact (a b : point) :
  equivalent a b 0 = true <-> klein_equiv a b.
Proof.
  rewrite equivalent_spec, !within_multiple_zero. unfold klein_equiv.
  split.
  - intros [[[k Hk] [m Hm]] | [[k Hk] [m Hm]]].
    + left. exists k, m. push_inj. split; lra.
    + right. exists k, m. push_inj. split; lra.
  - intros [(k & m & Hx & Hy) | (k & m & Hx & Hy)]; push_inj.
    + left. split; [exists k | exists m]; lra.
    + right. split; [exists k | exists m]; lra.
Qed.

Lemma equivalent_refl (a : point) (atol : Q) :
  0 <= atol -> equivalent a a atol = true.
Proof.
  intros Ha. apply equivalent_spec. left.
  split; exists 0%Z; apply Qabs_Qle_condition; push_inj; split; lra.
Qed.

Lemma klein_equiv_equivalent (a b : point) (atol : Q) :
  0 <= atol -> klein_equiv a b -> equivalent a b atol = true.
Proof.
  intros Ha H. rewrite (equivalent_compat_l a b b atol H).
  apply equivalent_refl, Ha.
Qed.

(* --- regularize --- *)
Lemma cast_int64_parity (z : Z) : (cast_int64 z mod 2 = z mod 2)%Z.
Proof.
  unfold cast_int64.
  rewrite (Z.mod_eq (z + 2 ^ 63) (2 ^ 64)) by lia.
  replace (z + 2 ^ 63 - 2 ^ 64 * ((z + 2 ^ 63) / 2 ^ 64) - 2 ^ 63)%Z
    with (z + (- (2 ^ 63 * ((z + 2 ^ 63) / 2 ^ 64))) * 2)%Z by lia.
  apply Z_mod_plus_full.
Qed.

Lemma even_abs (f : Z) : Z.even (Z.abs f) = Z.even f.
Proof. destruct f as [| p | p]; reflexivity. Qed.

Lemma num_steps_even (f : Z) :
  (cast_int64 (Z.abs f) mod 2 =? 0)%Z = Z.even f.
Proof.
  rewrite cast_int64_parity, Zmod_even, even_abs.
  destruct (Z.even f); reflexivity.
Qed.

Lemma gs_mod_1 (x : Q) : gs_mod x 1 == x - inject_Z (Qfloor x).
Proof.
  unfold gs_mod. rewrite (Qfloor_comp (x / 1) x) by (field). lra.
Qed.

Lemma regularize_klein_equiv (p : point) : klein_equiv (regularize p) p.
Proof.
  destruct p as [x y]. unfold regularize. cbn [fst snd].
  rewrite num_steps_even.
  destruct (Z.even (Qfloor x)) eqn:He.
  - left. apply Z.even_spec in He. destruct He as [k Hk].
    exists (- k)%Z, (- Qfloor y)%Z. cbn [fst snd].
    pose proof (gs_mod_1 x) as Gx. pose proof (gs_mod_1 y) as Gy.
    rewrite Hk in Gx. push_inj. split; lra.
  - right. assert (Ho : Z.odd (Qfloor x) = true) by (rewrite <- Z.negb_even, He; reflexivity).
    apply Z.odd_spec in Ho. destruct Ho as [k Hk].
    exists (- k - 1)%Z, (1 + Qfloor y - Qfloor (1 - gs_mod y 1))%Z. cbn [fst snd].
    pose proof (gs_mod_1 x) as Gx. pose proof (gs_mod_1 y) as Gy.
    pose proof (gs_mod_1 (1 - gs_mod y 1)) as Gy'.
    rewrite Hk in Gx. push_inj. split; lra.
Qed.

Lemma regularize_bounds (p : point) :
  (0 <= fst (regularize p) /\ fst (regularize p) < 1)
  /\ (0 <= snd (regularize p) /\ snd (regularize p) < 1).
Proof.
  unfold regularize. cbv zeta.
  destruct (_ =? _)%Z; cbn [fst snd]; split; apply gs_mod_bounds; reflexivity.
Qed.

Lemma Qfloor_unit (x : Q) : 0 <= x -> x < 1 -> Qfloor x = 0%Z.
Proof.
  intros H0 H1.
  pose proof (Qfloor_le x) as Hl. pose proof (Qlt_floor x) as Hu.
  assert (Ha : inject_Z (Qfloor x) < inject_Z 1) by (change (inject_Z 1) with 1; lra).
  assert (Hb : inject_Z (-1) < inject_Z (Qfloor x)).
  { rewrite inject_Z_plus in Hu. change (inject_Z 1) with 1 in Hu.
    change (inject_Z (-1)) with (-1 # 1). lra. }
  rewrite <- Zlt_Qlt in Ha, Hb. lia.
Qed.

Lemma regularize_fixed (q : point) :
  0 <= fst q -> fst q < 1 -> 0 <= snd q -> snd q < 1 ->
  point_eq (regularize q) q.
Proof.
  intros Hx0 Hx1 Hy0 Hy1. unfold regularize. cbv zeta.
  rewrite (Qfloor_unit (fst q)) by assumption.
  change (cast_int64 (Z.abs 0) mod 2 =? 0)%Z with true. cbv iota.
  unfold point_eq. cbn [fst snd]. rewrite !gs_mod_1.
  rewrite !Qfloor_unit by assumption. push_inj. split; lra.
Qed.

(* --- argmin --- *)
Lemma argmin_from_spec (l pre : list Q) (bi i : nat) (b d : Q) :
  length pre = i -> (bi < i)%nat -> nth bi (pre ++ l) d = b ->
  (forall w, In w pre -> b <= w) ->
  let r := argmin_from bi b i l in
  (r < length (pre ++ l))%nat /\ forall w, In w (pre ++ l) -> nth r (pre ++ l) d <= w.
Proof.
  revert pre bi i b. induction l as [| v t IH]; intros pre bi i b Hlen Hbi Hnth Hmin; cbn.
  - rewrite app_nil_r in *. split; [lia |]. intros w Hw. rewrite Hnth. apply Hmin, Hw.
  - replace (pre ++ v :: t) with ((pre ++ [v]) ++ t) in * by (rewrite <- app_assoc; reflexivity).
    destruct (Qle_bool b v) eqn:Hbv.
    + apply IH.
      * rewrite length_app; cbn; lia.
      * lia.
      * exact Hnth.
      * intros w Hw. apply in_app_or in Hw. destruct Hw as [Hw | [Hw | []]].
        -- apply Hmin, Hw.
        -- subst w. apply Qle_bool_iff, Hbv.
    + assert (Hvb : v < b).
      { apply Qnot_le_lt. intros Hc. apply Qle_bool_iff in Hc. congruence. }
      apply IH.
      * rewrite length_app; cbn; lia.
      * lia.
      * rewrite <- app_assoc. cbn. subst i. apply nth_middle.
      * intros w Hw. apply in_app_or in Hw. destruct Hw as [Hw | [Hw | []]].
        -- specialize (Hmin w Hw). lra.
        -- subst w. lra.
Qed.

Lemma argmin_spec (l : list Q) (d : Q) :
  l <> [] ->
  (argmin l < length l)%nat /\ forall w, In w l -> nth (argmin l) l d <= w.
Proof.
  destruct l as [| v t]; [congruence | intros _].
  apply (argmin_from_spec t [v] 0%nat 1%nat v d); cbn; try lia; try reflexivity.
  intros w [Hw | []]. subst w. lra.
Qed.

Lemma closest_is_candidate (point1 point2 : point) :
  In (snd (_closest_representative point1 point2)) (p2_total (regularize point2)).
Proof.
  unfold _closest_representative. cbn [snd].
  set (p1 := regularize point1). set (p2 := regularize point2).
  apply nth_In.
  destruct (argmin_spec (map (fun c => sq_dist c p1) (p2_total p2)) 0) as [Hlt _].
  - discriminate.
  - rewrite length_map in Hlt. exact Hlt.
Qed.

Lemma closest_le_candidates (point1 point2 c : point) :
  In c (p2_total (regularize point2)) ->
  sq_dist (snd (_closest_representative point1 point2)) (regularize point1)
  <= sq_dist c (regularize point1).
Proof.
  intros Hc. unfold _closest_representative. cbn [snd].
  set (p1 := regularize point1) in *. set (p2 := regularize point2) in *.
  set (f := fun c0 : point => sq_dist c0 p1).
  change (f (nth (argmin (map f (p2_total p2))) (p2_total p2) p2) <= f c).
  rewrite <- map_nth.
  apply argmin_spec; [discriminate |]. apply in_map, Hc.
Qed.

Lemma candidate_klein_equiv (p2 c : point) :
  In c (p2_total p2) -> klein_equiv c p2.
Proof.
  unfold p2_total. cbv zeta. intros H.
  repeat (destruct H as [H | H]; [subst c; cbn [fst snd] |]); try contradiction.
  - apply klein_equiv_refl.
  - left. exists 0%Z, (-1)%Z. cbn [fst snd]. push_inj. split; lra.
  - left. exists 0%Z, 1%Z. cbn [fst snd]. push_inj. split; lra.
  - right. exists 0%Z, 1%Z. cbn [fst snd]. push_inj. split; lra.
  - right. exists 0%Z, 2%Z. cbn [fst snd]. push_inj. split; lra.
  - right. exists 0%Z, 0%Z. cbn [fst snd]. push_inj. split; lra.
  - right. exists (-1)%Z, 1%Z. cbn [fst snd]. push_inj. split; lra.
  - right. exists (-1)%Z, 2%Z. cbn [fst snd]. push_inj. split; lra.
  - right. exists (-1)%Z, 0%Z. cbn [fst snd]. push_inj. split; lra.
Qed.

Ltac abs_inj :=
  repeat match goal with
    | H : context [inject_Z ?k] |- _ =>
        is_var k; let K := fresh "K" in set (K := inject_Z k) in *; clearbody K
    | |- context [inject_Z ?k] =>
        is_var k; let K := fresh "K" in set (K := inject_Z k) in *; clearbody K
    end.

Lemma sq_even_shift (t J : Q) :
  -1 < t -> t < 1 -> J == 0 \/ 2 <= J \/ J <= -2 ->
  t * t <= (t + J) * (t + J).
Proof. intros H1 H2 [H | [H | H]]; nra. Qed.

Lemma sq_clamp_hi (t c J : Q) :
  t <= c -> c <= J -> (c - t) * (c - t) <= (J - t) * (J - t).
Proof. intros; nra. Qed.

Lemma sq_clamp_lo (t c J : Q) :
  c <= t -> J <= c -> (c - t) * (c - t) <= (J - t) * (J - t).
Proof. intros; nra. Qed.

Lemma Z_int_cases (k : Z) :
  (inject_Z k <= -1 /\ (k <= -1)%Z) \/ k = 0%Z \/ (1 <= inject_Z k /\ (1 <= k)%Z).
Proof.
  destruct (Z_lt_le_dec k 0) as [H | H].
  - left. split; [| lia]. assert (H' : (k <= -1)%Z) by lia.
    rewrite Zle_Qle in H'. exact H'.
  - destruct (Z.eq_dec k 0) as [-> | Hn]; [right; left; reflexivity |].
    right; right. split; [| lia]. assert (H' : (1 <= k)%Z) by lia.
    rewrite Zle_Qle in H'. exact H'.
Qed.

Lemma candidate_dominates (p1 p2 q : point) :
  in_unit_square p1 -> in_unit_square p2 -> klein_equiv q p2 ->
  exists c, In c (p2_total p2) /\ sq_dist c p1 <= sq_dist q p1.
Proof.
  destruct p1 as [a b], p2 as [x y], q as [qx qy].
  unfold in_unit_square, klein_equiv, p2_total, sq_dist. cbn [fst snd].
  intros [[Ha0 Ha1] [Hb0 Hb1]] [[Hx0 Hx1] [Hy0 Hy1]]
         [(k & m & Hx & Hy) | (k & m & Hx & Hy)]; push_inj.
  - assert (HX : (x - a) * (x - a) <= (qx - a) * (qx - a)).
    { destruct (Z_int_cases k) as [[Hk _] | [-> | [Hk _]]]; push_inj;
        abs_inj; nra. }
    destruct (Z_int_cases m) as [[Hm _] | [-> | [Hm _]]]; push_inj.
    + exists (x, y - 1). split; [cbn; tauto |]. cbn [fst snd].
      assert ((y - 1 - b) * (y - 1 - b) <= (qy - b) * (qy - b)) by
        (abs_inj; nra).
      lra.
    + exists (x, y). split; [cbn; tauto |]. cbn [fst snd].
      assert ((y - b) * (y - b) <= (qy - b) * (qy - b)) by nra.
      lra.
    + exists (x, y + 1). split; [cbn; tauto |]. cbn [fst snd].
      assert ((y + 1 - b) * (y + 1 - b) <= (qy - b) * (qy - b)) by
        (abs_inj; nra).
      lra.
  - (* mirrored copies: the vertical coordinate is [m - y] *)
    assert (HY : exists m0 : Q, (m0 == 0 \/ m0 == 1 \/ m0 == 2) /\
               (m0 - y - b) * (m0 - y - b) <= (qy - b) * (qy - b)).
    { destruct (Z_int_cases (m - 1)) as [[Hm _] | [Hm | [Hm _]]]; push_inj.
      - exists 0. split; [left; reflexivity |].
        abs_inj; nra.
      - assert (m = 1%Z) by lia. subst m. push_inj.
        exists 1. split; [right; left; reflexivity |]. nra.
      - exists 2. split; [right; right; reflexivity |].
        abs_inj; nra. }
    destruct HY as (m0 & Hm0 & HY).
    assert (HX : exists j0 : Q, (j0 == 1 \/ j0 == -1) /\
               (x + j0 - a) * (x + j0 - a) <= (qx - a) * (qx - a)).
    { destruct (Z_int_cases k) as [[Hk _] | [-> | [Hk _]]]; push_inj.
      - exists (-1). split; [right; reflexivity |].
        abs_inj; nra.
      - exists 1. split; [left; reflexivity |]. nra.
      - exists 1. split; [left; reflexivity |].
        abs_inj; nra. }
    destruct HX as (j0 & Hj0 & HX).
    destruct Hj0 as [Hj0 | Hj0]; destruct Hm0 as [Hm0 | [Hm0 | Hm0]].
    + exists (x + 1, 0 - y). split; [cbn; tauto |]. cbn [fst snd]. nra.
    + exists (x + 1, 1 - y). split; [cbn; tauto |]. cbn [fst snd]. nra.
    + exists (x + 1, 2 - y). split; [cbn; tauto |]. cbn [fst snd]. nra.
    + exists (x - 1, 0 - y). split; [cbn; tauto |]. cbn [fst snd]. nra.
    + exists (x - 1, 1 - y). split; [cbn; tauto |]. cbn [fst snd]. nra.
    + exists (x - 1, 2 - y). split; [cbn; tauto |]. cbn [fst snd]. nra.
Qed.

(** ** Relating the code's tests to the words of the specification *)

Lemma within_multiple_even (atol v : Q) :
  within_multiple atol 2 v <-> is_even_integer_within atol v.
Proof.
  unfold within_multiple, is_even_integer_within.
  split; intros [k Hk]; exists k; rewrite inject_Z_mult in *; exact Hk.
Qed.

Lemma within_multiple_odd (atol v : Q) :
  within_multiple atol 2 (v - 1) <-> is_odd_integer_within atol v.
Proof.
  unfold within_multiple, is_odd_integer_within.
  split; intros [k Hk]; exists k; apply Qabs_Qle_condition in Hk;
    apply Qabs_Qle_condition; push_inj; split; lra.
Qed.

Lemma within_multiple_int (atol v : Q) :
  within_multiple atol 1 v <-> is_integer_within atol v.
Proof.
  unfold within_multiple, is_integer_within.
  split; intros [k Hk]; exists k; apply Qabs_Qle_condition in Hk;
    apply Qabs_Qle_condition; split; lra.
Qed.

Lemma regularize_in_unit_square (p : point) : in_unit_square (regularize p).
Proof. apply regularize_bounds. Qed.

Lemma log_unfold (pt base_point : point) :
  log pt base_point
  = psub (snd (_closest_representative base_point pt)) (regularize base_point).
Proof. reflexivity. Qed.

Lemma exp_log_klein_equiv (pt base_point : point) :
  klein_equiv (exp (log pt base_point) base_point) pt.
Proof.
  rewrite log_unfold. unfold exp.
  pose proof (closest_is_candidate base_point pt) as Hin.
  apply candidate_klein_equiv in Hin.
  set (m := snd (_closest_representative base_point pt)) in *. clearbody m.
  set (p1 := regularize base_point). clearbody p1.
  eapply klein_equiv_trans; [apply regularize_klein_equiv |].
  eapply klein_equiv_trans; [| eapply klein_equiv_trans;
                                [exact Hin | apply regularize_klein_equiv]].
  apply point_eq_klein_equiv. unfold point_eq, padd, psub. cbn [fst snd].
  split; lra.
Qed.

(** ** The scenarios of the specification *)

Example regularize_scenario :
  point_eq (regularize (3 # 2, 3 # 10)) (1 # 2, 7 # 10).
Proof. vm_compute. split; reflexivity. Qed.

Example log_scenario :
  point_eq (log (1 # 10, 1 # 10) (9 # 10, 9 # 10)) (2 # 10, 0).
Proof. vm_compute. split; reflexivity. Qed.

(** ** The claims *)

(** C1 -- Klein bottle exp/log round trip.  For every point and base point,
    [exp (log point base_point) base_point] is a point that [equivalent]
    accepts as equivalent to [point], under every non-negative tolerance (so
    under the default one); the same holds elementwise on a batch, with the
    base point broadcast or given per element. *)
Theorem exp_log_round_trip (atol : Q) (Hatol : 0 <= atol) :
  (forall pt base_point : point,
      equivalent (exp (log pt base_point) base_point) pt atol = true)
  /\ (forall (pts : list point) (base_point : point),
         Forall2 (fun q p => equivalent q p atol = true)
           (exp_broadcast (log_broadcast pts base_point) base_point) pts)
  /\ (forall pts base_points : list point,
         length pts = length base_points ->
         Forall2 (fun q p => equivalent q p atol = true)
           (exp_batch (log_batch pts base_points) base_points) pts).
Proof.
  assert (H1 : forall pt base_point : point,
             equivalent (exp (log pt base_point) base_point) pt atol = true).
  { intros pt b. apply klein_equiv_equivalent; [exact Hatol |].
    apply exp_log_klein_equiv. }
  split; [exact H1 | split].
  - intros pts b. unfold exp_broadcast, log_broadcast.
    induction pts as [| p t IH]; cbn [map]; constructor;
      [apply H1 | exact IH].
  - intros pts. unfold exp_batch, log_batch.
    induction pts as [| p t IH]; intros [| b bs] Hlen;
      cbn [map combine fst snd length] in *;
      try discriminate; constructor.
    + apply H1.
    + apply IH. lia.
Qed.

Lemma exp_log_round_trip_witness :
  0 <= gs_atol
  /\ equivalent (exp (log (1 # 10, 1 # 10) (9 # 10, 9 # 10)) (9 # 10, 9 # 10))
       (1 # 10, 1 # 10) gs_atol = true.
Proof.
  assert (H : 0 <= gs_atol) by (unfold gs_atol, Qle; simpl; lia).
  split; [exact H |].
  apply (proj1 (exp_log_round_trip gs_atol H)).
Defined.

(** C2 -- Closest-representative optimality.  [log] returns the difference
    between the representative selected by [_closest_representative] and the
    regularized base point; that representative is one of the nine candidates,
    its squared distance to [regularize base_point] is at most that of each
    candidate, and at most that of every point of the whole equivalence class
    of [point] (the points [equivalent] accepts at tolerance zero). *)
Theorem closest_representative_optimal (base_point pt : point) :
  let p1 := fst (_closest_representative base_point pt) in
  let selected := snd (_closest_representative base_point pt) in
  p1 = regularize base_point
  /\ log pt base_point = psub selected p1
  /\ In selected (p2_total (regularize pt))
  /\ (forall c : point,
         In c (p2_total (regularize pt)) -> sq_dist selected p1 <= sq_dist c p1)
  /\ (forall q : point,
         equivalent q pt 0 = true -> sq_dist selected p1 <= sq_dist q p1).
Proof.
  cbv zeta.
  split; [reflexivity |]. split; [reflexivity |].
  split; [apply closest_is_candidate |].
  change (fst (_closest_representative base_point pt))
    with (regularize base_point).
  split.
  - intros c Hc. apply closest_le_candidates, Hc.
  - intros q Hq. apply equivalent_exact in Hq.
    assert (Hq2 : klein_equiv q (regularize pt)).
    { eapply klein_equiv_trans; [exact Hq |].
      apply klein_equiv_sym, regularize_klein_equiv. }
    destruct (candidate_dominates (regularize base_point) (regularize pt) q)
      as (c & Hc & Hle);
      [apply regularize_in_unit_square | apply regularize_in_unit_square
       | exact Hq2 |].
    pose proof (closest_le_candidates base_point pt c Hc) as Hmin.
    lra.
Qed.

Lemma closest_representative_optimal_witness :
  sq_dist (snd (_closest_representative (9 # 10, 9 # 10) (1 # 10, 1 # 10)))
    (fst (_closest_representative (9 # 10, 9 # 10) (1 # 10, 1 # 10)))
  <= sq_dist (1 # 10, 11 # 10)
       (fst (_closest_representative (9 # 10, 9 # 10) (1 # 10, 1 # 10)))
  /\ sq_dist (snd (_closest_representative (9 # 10, 9 # 10) (1 # 10, 1 # 10)))
       (fst (_closest_representative (9 # 10, 9 # 10) (1 # 10, 1 # 10)))
     <= sq_dist (31 # 10, - (1 # 10))
          (fst (_closest_representative (9 # 10, 9 # 10) (1 # 10, 1 # 10))).
Proof.
  pose proof (closest_representative_optimal (9 # 10, 9 # 10) (1 # 10, 1 # 10))
    as H.
  cbv zeta in H. destruct H as (_ & _ & _ & Hc & Hq).
  split.
  - apply Hc. vm_compute. right; right; left; reflexivity.
  - apply Hq. vm_compute. reflexivity.
Defined.





(** C8 -- Membership closure: [belongs (regularize p)] is true, both
    coordinates of the regularized point lie in [[0,1]]. *)
Theorem belongs_regularize (p : point) :
  belongs (regularize p) = true
  /\ (0 <= fst (regularize p) /\ fst (regularize p) <= 1)
  /\ (0 <= snd (regularize p) /\ snd (regularize p) <= 1).
Proof.
  destruct (regularize_bounds p) as [[Hx0 Hx1] [Hy0 Hy1]].
  split.
  - unfold belongs. rewrite !andb_true_iff, !Qle_bool_iff.
    repeat split; lra.
  - repeat split; lra.
Qed.

(** ** Further properties of the Klein bottle code *)

Lemma small_integer_zero (k : Z) : -1 < inject_Z k -> inject_Z k < 1 -> k = 0%Z.
Proof.
  intros H1 H2.
  change (-1) with (inject_Z (-1)) in H1. change 1 with (inject_Z 1) in H2.
  rewrite <- Zlt_Qlt in H1, H2. lia.
Qed.

Lemma unit_square_klein_equiv (a b : point) :
  in_unit_square a -> in_unit_square b -> klein_equiv a b -> point_eq a b.
Proof.
  intros [[Ha0 Ha1] [Hb0 Hb1]] [[Hc0 Hc1] [Hd0 Hd1]]
         [(k & m & Hx & Hy) | (k & m & Hx & Hy)].
  - assert (Hk : (2 * k)%Z = 0%Z) by (apply small_integer_zero; lra).
    assert (Hm : m = 0%Z) by (apply small_integer_zero; lra).
    rewrite Hk in Hx. subst m. change (inject_Z 0) with 0 in *.
    split; lra.
  - assert (Hk : (2 * k + 1)%Z = 0%Z) by (apply small_integer_zero; lra).
    lia.
Qed.

Lemma regularize_point_eq (p q : point) :
  klein_equiv p q -> point_eq (regularize p) (regularize q).
Proof.
  intros H. apply unit_square_klein_equiv; try apply regularize_in_unit_square.
  eapply klein_equiv_trans; [apply regularize_klein_equiv |].
  eapply klein_equiv_trans; [exact H |].
  apply klein_equiv_sym, regularize_klein_equiv.
Qed.



(** X3 -- The points [regularize] leaves unchanged are exactly those of the
    half-open square [[0,1) x [0,1)]; a point that [belongs] accepts is
    unchanged iff neither coordinate is [1]. *)
Theorem regularize_fixed_points (p : point) :
  (point_eq (regularize p) p <-> in_unit_square p)
  /\ (belongs p = true ->
      (point_eq (regularize p) p <-> fst p < 1 /\ snd p < 1)).
Proof.
  assert (H : point_eq (regularize p) p <-> in_unit_square p).
  { split.
    - intros [Hx Hy]. destruct (regularize_bounds p) as [[Hx0 Hx1] [Hy0 Hy1]].
      unfold in_unit_square. repeat split; lra.
    - intros [[Hx0 Hx1] [Hy0 Hy1]]. apply regularize_fixed; assumption. }
  split; [exact H |].
  intros Hb. rewrite H. unfold belongs in Hb.
  rewrite !andb_true_iff, !Qle_bool_iff in Hb. unfold in_unit_square. tauto.
Qed.

Lemma regularize_spec (p : point) :
  exists M : Z,
    fst (regularize p) == fst p - inject_Z (Qfloor (fst p))
    /\ (if Z.even (Qfloor (fst p))
        then snd (regularize p) == snd p - inject_Z M
        else snd (regularize p) == inject_Z M - snd p).
Proof.
  destruct p as [x y]. unfold regularize. cbn [fst snd].
  rewrite num_steps_even.
  pose proof (gs_mod_1 x) as Gx. pose proof (gs_mod_1 y) as Gy.
  pose proof (gs_mod_1 (1 - gs_mod y 1)) as Gy'.
  destruct (Z.even (Qfloor x)); cbn [fst snd].
  - exists (Qfloor y). split; lra.
  - exists (1 + Qfloor y - Qfloor (1 - gs_mod y 1))%Z. push_inj. split; lra.
Qed.

Lemma point_eq_trans (a b c : point) :
  point_eq a b -> point_eq b c -> point_eq a c.
Proof. intros [H1 H2] [H3 H4]. split; lra. Qed.

Lemma regularize_regularize (p : point) :
  point_eq (regularize (regularize p)) (regularize p).
Proof.
  destruct (regularize_bounds p) as [[Hx0 Hx1] [Hy0 Hy1]].
  apply regularize_fixed; assumption.
Qed.



Lemma closest_le_class (base_point pt q : point) :
  klein_equiv q pt ->
  sq_dist (snd (_closest_representative base_point pt)) (regularize base_point)
  <= sq_dist q (regularize base_point).
Proof.
  intros Hq.
  assert (Hq2 : klein_equiv q (regularize pt)).
  { eapply klein_equiv_trans; [exact Hq |].
    apply klein_equiv_sym, regularize_klein_equiv. }
  destruct (candidate_dominates (regularize base_point) (regularize pt) q)
    as (c & Hc & Hle);
    [apply regularize_in_unit_square | apply regularize_in_unit_square
     | exact Hq2 |].
  pose proof (closest_le_candidates base_point pt c Hc) as Hmin. lra.
Qed.

Lemma closest_klein_equiv (base_point pt : point) :
  klein_equiv (snd (_closest_representative base_point pt)) pt.
Proof.
  eapply klein_equiv_trans; [| apply regularize_klein_equiv].
  apply candidate_klein_equiv, closest_is_candidate.
Qed.

Lemma sq_sum_lt_quarter (u v : Q) :
  u * u + v * v < (1 # 2) * (1 # 2) -> - (1 # 2) < u /\ u < 1 # 2.
Proof.
  intros H. assert (0 <= v * v) by nra.
  split.
  - destruct (Qlt_le_dec (- (1 # 2)) u) as [Hu | Hu]; [exact Hu | nra].
  - destruct (Qlt_le_dec u (1 # 2)) as [Hu | Hu]; [exact Hu | nra].
Qed.

(** X6 -- Within the injectivity radius [log] undoes [exp]: for a tangent
    vector of squared norm below the squared radius,
    [log (exp tangent_vec base_point) base_point] is [tangent_vec]. *)
Theorem log_exp_within_injectivity_radius (tangent_vec base_point : point) :
  inner_product tangent_vec tangent_vec
  < injectivity_radius base_point * injectivity_radius base_point ->
  point_eq (log (exp tangent_vec base_point) base_point) tangent_vec.
Proof.
  unfold inner_product, injectivity_radius. intros Hv.
  rewrite log_unfold.
  set (p1 := regularize base_point).
  set (pt := exp tangent_vec base_point).
  assert (Hw : klein_equiv (padd p1 tangent_vec) pt).
  { apply klein_equiv_sym. unfold pt, exp. fold p1. apply regularize_klein_equiv. }
  pose proof (closest_le_class base_point pt _ Hw) as Hle.
  pose proof (closest_klein_equiv base_point pt) as Hsel.
  fold p1 in Hle.
  set (sel := snd (_closest_representative base_point pt)) in *. clearbody sel.
  assert (Hsw : klein_equiv sel (padd p1 tangent_vec)).
  { eapply klein_equiv_trans; [exact Hsel | apply klein_equiv_sym, Hw]. }
  clear Hsel Hw. clearbody p1. clear pt.
  destruct p1 as [a b], sel as [sx sy], tangent_vec as [vx vy].
  unfold sq_dist, padd, psub, point_eq in *. cbn [fst snd] in *.
  assert (Hvx : -(1#2) < vx /\ vx < 1#2) by (apply (sq_sum_lt_quarter vx vy); lra).
  assert (Hvy : -(1#2) < vy /\ vy < 1#2) by (apply (sq_sum_lt_quarter vy vx); lra).
  assert (Hsx : -(1#2) < sx - a /\ sx - a < 1#2)
    by (apply (sq_sum_lt_quarter (sx - a) (sy - b)); lra).
  assert (Hsy : -(1#2) < sy - b /\ sy - b < 1#2)
    by (apply (sq_sum_lt_quarter (sy - b) (sx - a)); lra).
  destruct Hsw as [(k & m & Hx & Hy) | (k & m & Hx & Hy)]; cbn [fst snd] in *.
  - assert (Hk : (2 * k)%Z = 0%Z) by (apply small_integer_zero; lra).
    assert (Hm : m = 0%Z) by (apply small_integer_zero; lra).
    rewrite Hk in Hx. subst m. change (inject_Z 0) with 0 in *. split; lra.
  - assert (Hk : (2 * k + 1)%Z = 0%Z) by (apply small_integer_zero; lra).
    lia.
Qed.

Lemma log_exp_within_injectivity_radius_witness :
  point_eq (log (exp (1 # 4, - (1 # 3)) (17 # 10, 1 # 5)) (17 # 10, 1 # 5))
    (1 # 4, - (1 # 3)).
Proof.
  apply log_exp_within_injectivity_radius. vm_compute. reflexivity.
Defined.

Lemma sq_sum_le_zero (u v : Q) : u * u + v * v <= 0 -> u == 0.
Proof.
  intros H. assert (0 <= v * v) by nra.
  destruct (Qlt_le_dec u 0) as [Hu | Hu]; [nra |].
  destruct (Qlt_le_dec 0 u) as [Hu' | Hu']; [nra | lra].
Qed.



Lemma candidate_within_half (p1 p2 : point) :
  in_unit_square p1 -> in_unit_square p2 ->
  exists c, In c (p2_total p2) /\ sq_dist c p1 <= 1 # 2.
Proof.
  destruct p1 as [a b], p2 as [x y].
  unfold in_unit_square, p2_total, sq_dist. cbn [fst snd].
  intros [[Ha0 Ha1] [Hb0 Hb1]] [[Hx0 Hx1] [Hy0 Hy1]].
  destruct (Qlt_le_dec (1 # 2) (x - a)) as [Hd1 | Hd1];
    [| destruct (Qlt_le_dec (x - a) (- (1 # 2))) as [Hd2 | Hd2]].
  - (* the copy on the left, mirrored *)
    destruct (Qlt_le_dec (y + b) (1 # 2)) as [Hs1 | Hs1];
      [| destruct (Qlt_le_dec (3 # 2) (y + b)) as [Hs2 | Hs2]].
    + exists (x - 1, 0 - y). split; [cbn; tauto |]. cbn [fst snd]. nra.
    + exists (x - 1, 2 - y). split; [cbn; tauto |]. cbn [fst snd]. nra.
    + exists (x - 1, 1 - y). split; [cbn; tauto |]. cbn [fst snd]. nra.
  - destruct (Qlt_le_dec (y + b) (1 # 2)) as [Hs1 | Hs1];
      [| destruct (Qlt_le_dec (3 # 2) (y + b)) as [Hs2 | Hs2]].
    + exists (x + 1, 0 - y). split; [cbn; tauto |]. cbn [fst snd]. nra.
    + exists (x + 1, 2 - y). split; [cbn; tauto |]. cbn [fst snd]. nra.
    + exists (x + 1, 1 - y). split; [cbn; tauto |]. cbn [fst snd]. nra.
  - destruct (Qlt_le_dec (1 # 2) (y - b)) as [He1 | He1];
      [| destruct (Qlt_le_dec (y - b) (- (1 # 2))) as [He2 | He2]].
    + exists (x, y - 1). split; [cbn; tauto |]. cbn [fst snd]. nra.
    + exists (x, y + 1). split; [cbn; tauto |]. cbn [fst snd]. nra.
    + exists (x, y). split; [cbn; tauto |]. cbn [fst snd]. nra.
Qed.

(** X8 -- The tangent vector [log] returns has squared norm at most [1/2]. *)
Theorem log_norm_bound (pt base_point : point) :
  inner_product (log pt base_point) (log pt base_point) <= 1 # 2.
Proof.
  rewrite log_unfold.
  destruct (candidate_within_half (regularize base_point) (regularize pt))
    as (c & Hc & Hle); try apply regularize_in_unit_square.
  pose proof (closest_le_candidates base_point pt c Hc) as Hmin.
  unfold inner_product, psub, sq_dist in *. cbn [fst snd] in *. lra.
Qed.

Lemma regularize_fixed_points_witness :
  point_eq (regularize (1, 1 # 2)) (1, 1 # 2) <-> 1 < 1 /\ (1 # 2) < 1.
Proof.
  apply (proj2 (regularize_fixed_points (1, 1 # 2))). reflexivity.
Defined.


End KleinBottleFacts.

(** * Matrices: facts *)

(** * Properties of the geometric distributions *)

From Stdlib Require Import Qpower.

Module GeometricFacts.
Import GeometricDistributions.
Local Open Scope Q_scope.

Lemma Qlt_bool_iff (x y : Q) : Qlt_bool x y = true <-> x < y.
Proof.
  unfold Qlt_bool. rewrite negb_true_iff. split.
  - intros H. apply Qnot_le_lt. intros Hc. apply Qle_bool_iff in Hc. congruence.
  - intros H. destruct (Qle_bool y x) eqn:E; [| reflexivity].
    apply Qle_bool_iff in E. lra.
Qed.

Lemma Qlt_bool_false_iff (x y : Q) : Qlt_bool x y = false <-> y <= x.
Proof.
  unfold Qlt_bool. rewrite negb_false_iff. apply Qle_bool_iff.
Qed.

Ltac cases_lt :=
  repeat match goal with
    | |- context [Qlt_bool ?x ?y] =>
        let E := fresh "E" in
        destruct (Qlt_bool x y) eqn:E;
        [apply Qlt_bool_iff in E | apply Qlt_bool_false_iff in E]
    end.

(** X9 -- For a tolerance in [[0, 1/2]], [projection] lands in
    [[atol, 1 - atol]], its result is accepted by [belongs], projecting twice
    is projecting once, and the points it leaves unchanged are exactly those
    of [[atol, 1 - atol]]. *)
Theorem geometric_projection_range (point atol : Q) :
  0 <= atol -> atol <= 1 # 2 ->
  (atol <= projection point atol /\ projection point atol <= 1 - atol)
  /\ belongs (projection point atol) atol = true
  /\ projection (projection point atol) atol = projection point atol
  /\ (projection point atol == point <-> atol <= point /\ point <= 1 - atol).
Proof.
  intros H0 H1.
  assert (Hr : atol <= projection point atol /\ projection point atol <= 1 - atol).
  { unfold projection, cast_bool. cases_lt; cbn [orb]; split; lra. }
  split; [exact Hr |]. split; [| split].
  - unfold belongs. rewrite andb_true_iff, !Qle_bool_iff. split; lra.
  - set (r := projection point atol) in *. unfold projection at 1.
    replace (Qlt_bool r atol) with false
      by (symmetry; apply Qlt_bool_false_iff; lra).
    replace (Qlt_bool (1 - atol) r) with false
      by (symmetry; apply Qlt_bool_false_iff; lra).
    reflexivity.
  - split.
    + intros E. lra.
    + intros [Ha Hb]. unfold projection.
      replace (Qlt_bool point atol) with false
        by (symmetry; apply Qlt_bool_false_iff; lra).
      replace (Qlt_bool (1 - atol) point) with false
        by (symmetry; apply Qlt_bool_false_iff; lra).
      reflexivity.
Qed.

Lemma geometric_projection_range_witness :
  projection (projection (3 # 2) (1 # 100)) (1 # 100)
  = projection (3 # 2) (1 # 100).
Proof.
  apply (geometric_projection_range (3 # 2) (1 # 100)); unfold Qle; cbn; lia.
Defined.

(** X10 -- For a tolerance above [1/2], a point strictly between [1 - atol] and
    [atol] triggers both clipping terms and is projected to [1]. *)
Theorem geometric_projection_large_tolerance (point atol : Q) :
  1 - atol < point -> point < atol -> projection point atol == 1.
Proof.
  intros H1 H2. unfold projection, cast_bool.
  replace (Qlt_bool point atol) with true by (symmetry; apply Qlt_bool_iff; lra).
  replace (Qlt_bool (1 - atol) point) with true
    by (symmetry; apply Qlt_bool_iff; lra).
  cbn [orb]. lra.
Qed.

Lemma geometric_projection_large_tolerance_witness : projection (1 # 2) (3 # 4) == 1.
Proof. apply geometric_projection_large_tolerance; unfold Qlt; cbn; lia. Defined.

Lemma Qpower_succ_nat (q : Q) (j : nat) :
  q ^ Z.of_nat (S j) == q * q ^ Z.of_nat j.
Proof.
  replace (Z.of_nat (S j)) with (1 + Z.of_nat j)%Z by lia.
  rewrite Qpower_plus' by lia. rewrite Qpower_1_r. reflexivity.
Qed.

(** X11 -- The masses the [pmf] gives to [1, ..., n] sum to
    [1 - (1 - point) ^ n]. *)
Theorem pmf_partial_sums (point : Q) (n : nat) :
  pmf_sum point n == 1 - (1 - point) ^ Z.of_nat n.
Proof.
  induction n as [| n IH].
  - cbn. lra.
  - cbn [pmf_sum]. rewrite IH. unfold pmf.
    replace (Z.of_nat (S n) - 1)%Z with (Z.of_nat n) by lia.
    rewrite Qpower_succ_nat.
    set (u := (1 - point) ^ Z.of_nat n). clearbody u. lra.
Qed.

End GeometricFacts.

From Stdlib Require Import Lra.

Module ArraysFacts.
Import Arrays Matrices.
Local Open Scope R_scope.

Lemma length_mk_vec (n : nat) (f : nat -> R) : length (mk_vec n f) = n.
Proof. unfold mk_vec. rewrite length_map, length_seq. reflexivity. Qed.

Lemma length_mk_mat (n : nat) (f : nat -> nat -> R) : length (mk_mat n f) = n.
Proof. unfold mk_mat. rewrite length_map, length_seq. reflexivity. Qed.

Lemma nth_map_seq {A : Type} (g : nat -> A) (d : A) (n i : nat) :
  (i < n)%nat -> nth i (map g (seq 0 n)) d = g i.
Proof.
  intros Hi. rewrite (nth_indep _ d (g 0%nat)) by (rewrite length_map, length_seq; exact Hi).
  rewrite (map_nth g (seq 0 n) 0%nat i), seq_nth by exact Hi. reflexivity.
Qed.

Lemma vnth_mk_vec (n : nat) (f : nat -> R) (i : nat) :
  (i < n)%nat -> vnth (mk_vec n f) i = f i.
Proof. intros Hi. unfold vnth, mk_vec. apply nth_map_seq, Hi. Qed.

Lemma entry_mk_mat (n : nat) (f : nat -> nat -> R) (i j : nat) :
  (i < n)%nat -> (j < n)%nat -> entry (mk_mat n f) i j = f i j.
Proof.
  intros Hi Hj. unfold entry, mk_mat.
  rewrite nth_map_seq by exact Hi. apply vnth_mk_vec, Hj.
Qed.

Lemma is_square_mk_mat (n : nat) (f : nat -> nat -> R) : is_square n (mk_mat n f).
Proof.
  split; [apply length_mk_mat |].
  unfold mk_mat. apply Forall_forall. intros row Hrow.
  apply in_map_iff in Hrow. destruct Hrow as (i & <- & _). apply length_mk_vec.
Qed.

Lemma mk_vec_ext (n : nat) (f g : nat -> R) :
  (forall i, (i < n)%nat -> f i = g i) -> mk_vec n f = mk_vec n g.
Proof.
  intros H. unfold mk_vec. apply map_ext_in. intros i Hi.
  apply in_seq in Hi. apply H. lia.
Qed.

Lemma mk_mat_ext (n : nat) (f g : nat -> nat -> R) :
  (forall i j, (i < n)%nat -> (j < n)%nat -> f i j = g i j) ->
  mk_mat n f = mk_mat n g.
Proof.
  intros H. unfold mk_mat. apply map_ext_in. intros i Hi.
  apply in_seq in Hi. apply mk_vec_ext. intros j Hj. apply H; lia.
Qed.

Lemma list_of_nth {A : Type} (l : list A) (d : A) :
  map (fun i => nth i l d) (seq 0 (length l)) = l.
Proof.
  apply (nth_ext _ _ d d).
  - rewrite length_map, length_seq. reflexivity.
  - intros i Hi. rewrite length_map, length_seq in Hi.
    rewrite (nth_map_seq (fun k => nth k l d)) by exact Hi. reflexivity.
Qed.

Lemma mk_vec_vnth (v : vec) : mk_vec (length v) (vnth v) = v.
Proof. apply list_of_nth. Qed.

Lemma mk_mat_entry (n : nat) (m : mat) : is_square n m -> mk_mat n (entry m) = m.
Proof.
  intros [Hlen Hrows]. unfold mk_mat.
  transitivity (map (fun i => nth i m []) (seq 0 (length m)));
    [| apply list_of_nth].
  rewrite Hlen. apply map_ext_in. intros i Hi. apply in_seq in Hi.
  assert (Hrow : length (nth i m []) = n).
  { rewrite Forall_forall in Hrows. apply Hrows, nth_In. lia. }
  rewrite <- Hrow. apply mk_vec_vnth.
Qed.

(** Two matrices of one shape with the same entries are equal. *)
Lemma mat_ext (n : nat) (a b : mat) :
  is_square n a -> is_square n b ->
  (forall i j, (i < n)%nat -> (j < n)%nat -> entry a i j = entry b i j) ->
  a = b.
Proof.
  intros Ha Hb H. rewrite <- (mk_mat_entry n a Ha), <- (mk_mat_entry n b Hb).
  apply mk_mat_ext, H.
Qed.

Lemma length_vzip op a b : length (vzip op a b) = length a.
Proof. apply length_mk_vec. Qed.
Lemma length_mzip op a b : length (mzip op a b) = length a.
Proof. apply length_mk_mat. Qed.
Lemma length_vmap f v : length (vmap f v) = length v.
Proof. apply length_map. Qed.
Lemma length_diagonal m : length (diagonal m) = length m.
Proof. apply length_mk_vec. Qed.
Lemma length_tril_below m : length (tril_below m) = length m.
Proof. apply length_mk_mat. Qed.
Lemma length_vec_to_diag v : length (vec_to_diag v) = length v.
Proof. apply length_mk_mat. Qed.

Lemma vnth_vmap (f : R -> R) (v : vec) (i : nat) :
  (i < length v)%nat -> vnth (vmap f v) i = f (vnth v i).
Proof.
  intros Hi. unfold vnth, vmap.
  rewrite (nth_indep _ 0 (f 0)) by (rewrite length_map; exact Hi).
  apply map_nth.
Qed.

Lemma vnth_vzip op a b i :
  (i < length a)%nat -> vnth (vzip op a b) i = op (vnth a i) (vnth b i).
Proof. intros Hi. unfold vzip. rewrite vnth_mk_vec by exact Hi. reflexivity. Qed.

Lemma entry_mzip op a b i j :
  (i < length a)%nat -> (j < length a)%nat ->
  entry (mzip op a b) i j = op (entry a i j) (entry b i j).
Proof. intros Hi Hj. unfold mzip. rewrite entry_mk_mat by assumption. reflexivity. Qed.

Lemma vnth_diagonal m i :
  (i < length m)%nat -> vnth (diagonal m) i = entry m i i.
Proof. intros Hi. unfold diagonal. rewrite vnth_mk_vec by exact Hi. reflexivity. Qed.

Lemma entry_tril_below m i j :
  (i < length m)%nat -> (j < length m)%nat ->
  entry (tril_below m) i j = if (j <? i)%nat then entry m i j else 0.
Proof. intros Hi Hj. unfold tril_below. rewrite entry_mk_mat by assumption. reflexivity. Qed.

Lemma entry_vec_to_diag v i j :
  (i < length v)%nat -> (j < length v)%nat ->
  entry (vec_to_diag v) i j = if (i =? j)%nat then vnth v i else 0.
Proof. intros Hi Hj. unfold vec_to_diag. rewrite entry_mk_mat by assumption. reflexivity. Qed.

End ArraysFacts.

Module CholeskyFacts.
Import Arrays Matrices ArraysFacts CholeskyMetric.
Local Open Scope R_scope.

Ltac lens :=
  rewrite ?length_mzip, ?length_vzip, ?length_vmap, ?length_diagonal,
    ?length_tril_below, ?length_vec_to_diag, ?length_mk_mat, ?length_mk_vec.

Ltac entries :=
  repeat first
    [ rewrite entry_mzip by (lens; lia)
    | rewrite entry_tril_below by (lens; lia)
    | rewrite entry_vec_to_diag by (lens; lia)
    | rewrite vnth_vzip by (lens; lia)
    | rewrite vnth_vmap by (lens; lia)
    | rewrite vnth_diagonal by (lens; lia) ].

Lemma entry_exp (n : nat) (t b : mat) (i j : nat) :
  length t = n -> length b = n -> (i < n)%nat -> (j < n)%nat ->
  entry (exp t b) i j
  = (if (j <? i)%nat then entry b i j else 0)
    + (if (j <? i)%nat then entry t i j else 0)
    + (if (i =? j)%nat
       then entry b i i * Rtrigo_def.exp (entry t i i / entry b i i) else 0).
Proof.
  intros Ht Hb Hi Hj. unfold exp, to_strictly_lower_triangular.
  entries. reflexivity.
Qed.

Lemma entry_log (n : nat) (p b : mat) (i j : nat) :
  length p = n -> length b = n -> (i < n)%nat -> (j < n)%nat ->
  entry (log p b) i j
  = (if (j <? i)%nat then entry p i j else 0)
    - (if (j <? i)%nat then entry b i j else 0)
    + (if (i =? j)%nat
       then entry b i i * ln (entry p i i / entry b i i) else 0).
Proof.
  intros Hp Hb Hi Hj. unfold log, to_strictly_lower_triangular.
  entries. reflexivity.
Qed.

Lemma is_square_exp (n : nat) (t b : mat) : length b = n -> is_square n (exp t b).
Proof.
  intros Hb. unfold exp, to_strictly_lower_triangular, mzip at 1.
  lens. rewrite Hb. apply is_square_mk_mat.
Qed.

Lemma is_square_log (n : nat) (p b : mat) : length p = n -> is_square n (log p b).
Proof.
  intros Hp. unfold log, to_strictly_lower_triangular, mzip at 1.
  lens. rewrite Hp. apply is_square_mk_mat.
Qed.

Lemma log_exp (n : nat) (b t : mat) :
  is_square n b -> has_positive_diagonal n b ->
  is_square n t -> is_lower_triangular n t ->
  log (exp t b) b = t.
Proof.
  intros Hb Hpos Ht Hlow.
  apply (mat_ext n); [apply is_square_log, is_square_exp, Hb | exact Ht |].
  intros i j Hi Hj.
  rewrite (entry_log n) by (try apply is_square_exp; try apply Hb; assumption).
  rewrite !(entry_exp n) by (try apply Ht; try apply Hb; assumption).
  rewrite Nat.eqb_refl, Nat.ltb_irrefl.
  destruct (j <? i)%nat eqn:Hlt; destruct (i =? j)%nat eqn:Heq.
  - apply Nat.ltb_lt in Hlt. apply Nat.eqb_eq in Heq. lia.
  - lra.
  - apply Nat.eqb_eq in Heq. subst j. specialize (Hpos i Hi).
    replace ((0 + 0 + entry b i i * Rtrigo_def.exp (entry t i i / entry b i i))
             / entry b i i)
      with (Rtrigo_def.exp (entry t i i / entry b i i)) by (field; lra).
    rewrite ln_exp. field. lra.
  - apply Nat.ltb_ge in Hlt. apply Nat.eqb_neq in Heq.
    rewrite (Hlow i j) by lia. lra.
Qed.

Lemma exp_log (n : nat) (b p : mat) :
  is_square n b -> has_positive_diagonal n b ->
  is_square n p -> is_lower_triangular n p -> has_positive_diagonal n p ->
  exp (log p b) b = p.
Proof.
  intros Hb Hpos Hp Hlow Hppos.
  apply (mat_ext n); [apply is_square_exp, Hb | exact Hp |].
  intros i j Hi Hj.
  rewrite (entry_exp n) by (try apply is_square_log; try apply Hp; try apply Hb; assumption).
  rewrite !(entry_log n) by (try apply Hp; try apply Hb; assumption).
  rewrite Nat.eqb_refl, Nat.ltb_irrefl.
  destruct (j <? i)%nat eqn:Hlt; destruct (i =? j)%nat eqn:Heq.
  - apply Nat.ltb_lt in Hlt. apply Nat.eqb_eq in Heq. lia.
  - lra.
  - apply Nat.eqb_eq in Heq. subst j.
    specialize (Hpos i Hi). specialize (Hppos i Hi).
    replace ((0 - 0 + entry b i i * ln (entry p i i / entry b i i)) / entry b i i)
      with (ln (entry p i i / entry b i i)) by (field; lra).
    rewrite exp_ln.
    + field. lra.
    + apply Rdiv_lt_0_compat; assumption.
  - apply Nat.ltb_ge in Hlt. apply Nat.eqb_neq in Heq.
    rewrite (Hlow i j) by lia. lra.
Qed.

(** *** Sums *)

Lemma vsum_app (u v : vec) : vsum (u ++ v) = vsum u + vsum v.
Proof.
  unfold vsum. induction u as [| x u IH]; cbn [app fold_right]; [lra |].
  rewrite IH. lra.
Qed.

Lemma vsum_mk_vec (n : nat) (f : nat -> R) : vsum (mk_vec n f) = sum_upto n f.
Proof.
  unfold mk_vec. induction n as [| n IH]; [reflexivity |].
  rewrite seq_S, map_app, vsum_app, IH. cbn. lra.
Qed.

Lemma sum_upto_ext (n : nat) (f g : nat -> R) :
  (forall i, (i < n)%nat -> f i = g i) -> sum_upto n f = sum_upto n g.
Proof.
  induction n as [| n IH]; intros H; cbn [sum_upto]; [reflexivity |].
  rewrite IH, (H n) by (intros; try apply H; lia). reflexivity.
Qed.

Lemma sum_upto_mask (n i : nat) (g : nat -> R) :
  (i <= n)%nat ->
  sum_upto n (fun j => if (j <? i)%nat then g j else 0) = sum_upto i g.
Proof.
  induction n as [| n IH]; intros Hi.
  - assert (i = 0%nat) by lia. subst i. reflexivity.
  - cbn [sum_upto]. destruct (Nat.eq_dec i (S n)) as [-> | Hne].
    + replace (n <? S n)%nat with true by (symmetry; apply Nat.ltb_lt; lia).
      cbn [sum_upto]. f_equal. apply sum_upto_ext. intros j Hj.
      replace (j <? S n)%nat with true by (symmetry; apply Nat.ltb_lt; lia).
      reflexivity.
    + replace (n <? i)%nat with false by (symmetry; apply Nat.ltb_ge; lia).
      rewrite IH by lia. lra.
Qed.

Lemma vmap_mk_vec (f : R -> R) (n : nat) (g : nat -> R) :
  vmap f (mk_vec n g) = mk_vec n (fun i => f (g i)).
Proof. unfold vmap, mk_vec. apply map_map. Qed.

Lemma msum_mk_mat (n : nat) (f : nat -> nat -> R) :
  msum (mk_mat n f) = sum_upto n (fun i => sum_upto n (f i)).
Proof.
  unfold msum, mk_mat. rewrite map_map.
  change (map (fun i => vsum (mk_vec n (f i))) (seq 0 n))
    with (mk_vec n (fun i => vsum (mk_vec n (f i)))).
  rewrite vsum_mk_vec. apply sum_upto_ext. intros i _. apply vsum_mk_vec.
Qed.

Lemma squared_dist_eq_closed_form (n : nat) (a b : mat) :
  length a = n -> length b = n ->
  squared_dist a b = squared_dist_closed_form n a b.
Proof.
  intros Ha Hb. unfold squared_dist, squared_dist_closed_form.
  rewrite Rplus_comm. f_equal.
  - unfold vzip at 1. rewrite vmap_mk_vec, vsum_mk_vec. lens. rewrite Ha.
    apply sum_upto_ext. intros i Hi. unfold gs_log.
    rewrite !vnth_vmap, !vnth_diagonal by (lens; lia). reflexivity.
  - unfold frobenius_product, to_strictly_lower_triangular, mzip at 1.
    rewrite msum_mk_mat. lens. rewrite Ha.
    apply sum_upto_ext. intros i Hi.
    rewrite <- (sum_upto_mask n i) by lia.
    apply sum_upto_ext. intros j Hj. entries.
    destruct (j <? i)%nat; cbn [pow]; lra.
Qed.

(** Shape and membership of concrete matrices, by enumeration. *)
Ltac square_ok := split; [reflexivity | repeat constructor].
Ltac lower_ok :=
  let i := fresh "i" in let j := fresh "j" in
  intros i j ? ?;
  destruct i as [| [| [| i]]]; destruct j as [| [| [| j]]];
  try lia; reflexivity.
Ltac positive_ok :=
  let i := fresh "i" in
  intros i ?; destruct i as [| [| [| i]]]; try lia;
  unfold entry; cbn [nth]; lra.

Example exp_scenario :
  exp [[0; 0]; [1; 0]] [[1; 0]; [0; 1]] = [[1; 0]; [1; 1]].
Proof.
  apply (mat_ext 2); [apply is_square_exp; reflexivity | square_ok |].
  intros i j Hi Hj. rewrite (entry_exp 2) by (try reflexivity; assumption).
  destruct i as [| [| i]]; destruct j as [| [| j]]; try lia;
    unfold entry; cbn [nth Nat.ltb Nat.leb Nat.eqb];
    try (replace (0 / 1) with 0 by field; rewrite exp_0); lra.
Qed.

(** C3 -- Cholesky exp/log mutual inversion.  At every [n x n]
    lower-triangular base point with strictly positive diagonal, [log] undoes
    [exp] on every lower-triangular tangent vector, and [exp] undoes [log] on
    every lower-triangular point with strictly positive diagonal (equality of
    matrices over the reals). *)
Theorem cholesky_exp_log_inverse (n : nat) (base_point : mat) :
  is_square n base_point ->
  is_lower_triangular n base_point ->
  has_positive_diagonal n base_point ->
  (forall tangent_vec : mat,
      is_square n tangent_vec -> is_lower_triangular n tangent_vec ->
      log (exp tangent_vec base_point) base_point = tangent_vec)
  /\ (forall pt : mat,
         is_square n pt -> is_lower_triangular n pt ->
         has_positive_diagonal n pt ->
         exp (log pt base_point) base_point = pt).
Proof.
  intros Hsq _ Hpos. split.
  - intros t Ht Hlow. apply (log_exp n); assumption.
  - intros p Hp Hlow Hppos. apply (exp_log n); assumption.
Qed.

Lemma cholesky_exp_log_inverse_witness :
  log (exp [[1; 0]; [5; -1]] [[2; 0]; [1; 3]]) [[2; 0]; [1; 3]]
  = [[1; 0]; [5; -1]]
  /\ exp (log [[1; 0]; [4; 2]] [[2; 0]; [1; 3]]) [[2; 0]; [1; 3]]
     = [[1; 0]; [4; 2]].
Proof.
  assert (Hsq : is_square 2 [[2; 0]; [1; 3]]) by square_ok.
  assert (Hlow : is_lower_triangular 2 [[2; 0]; [1; 3]]) by lower_ok.
  assert (Hpos : has_positive_diagonal 2 [[2; 0]; [1; 3]]) by positive_ok.
  destruct (cholesky_exp_log_inverse 2 [[2; 0]; [1; 3]] Hsq Hlow Hpos)
    as [H1 H2].
  split.
  - apply H1; [square_ok | lower_ok].
  - apply H2; [square_ok | lower_ok | positive_ok].
Defined.

(** C9 -- Closed form of the Cholesky squared distance.  [squared_dist a b]
    is the sum of the squared differences of the logarithms of the diagonals
    plus the squared Frobenius norm of the difference of the strictly lower
    triangular parts (for all matrices of one shape, so for all points of the
    Cholesky space); between the identity and [[e,0],[0,1]] it is [1]. *)
Theorem squared_dist_closed_form_correct :
  (forall (n : nat) (a b : mat),
      is_square n a -> is_square n b ->
      squared_dist a b = squared_dist_closed_form n a b)
  /\ squared_dist [[1; 0]; [0; 1]] [[Rtrigo_def.exp 1; 0]; [0; 1]] = 1.
Proof.
  split.
  - intros n a b [Ha _] [Hb _]. apply squared_dist_eq_closed_form; assumption.
  - rewrite (squared_dist_eq_closed_form 2) by reflexivity.
    unfold squared_dist_closed_form. cbn [sum_upto].
    unfold entry. cbn [nth]. rewrite ln_1, ln_exp. cbn [pow]. lra.
Qed.

Lemma squared_dist_closed_form_correct_witness :
  squared_dist [[2; 0]; [1; 3]] [[1; 0]; [4; 2]]
  = squared_dist_closed_form 2 [[2; 0]; [1; 3]] [[1; 0]; [4; 2]].
Proof.
  apply (proj1 squared_dist_closed_form_correct); square_ok.
Defined.

End CholeskyFacts.

Module SparseFacts.
Import Arrays Matrices ArraysFacts.
Local Open Scope R_scope.

Lemma mem_In (i j : nat) (l : list (nat * nat)) :
  mem i j l = true <-> In (i, j) l.
Proof.
  unfold mem. rewrite existsb_exists. split.
  - intros ([a b] & Hin & H). cbn [fst snd] in H.
    apply andb_true_iff in H. destruct H as [H1 H2].
    apply Nat.eqb_eq in H1, H2. subst. exact Hin.
  - intros Hin. exists (i, j). split; [exact Hin |].
    cbn [fst snd]. rewrite !Nat.eqb_refl. reflexivity.
Qed.

Lemma combine_map_self {A B : Type} (f : A -> B) (l : list A) :
  combine l (map f l) = map (fun x => (x, f x)) l.
Proof. induction l as [| x l IH]; cbn; [| rewrite IH]; reflexivity. Qed.

Lemma fold_assign_tabulated (f : nat * nat -> R) (l : list (nat * nat))
      (a : nat -> nat -> R) (i j : nat) :
  fold_left assign (map (fun ij => (ij, f ij)) l) a i j
  = if mem i j l then f (i, j) else a i j.
Proof.
  revert a. induction l as [| x l IH]; intros a; [reflexivity |].
  cbn [map fold_left]. rewrite IH. unfold mem. cbn [existsb].
  fold (mem i j l). destruct (mem i j l); [rewrite orb_true_r; reflexivity |].
  rewrite orb_false_r. unfold assign. cbn [fst snd].
  destruct ((i =? fst x) && (j =? snd x))%nat eqn:H; [| reflexivity].
  apply andb_true_iff in H. destruct H as [H1 H2].
  apply Nat.eqb_eq in H1, H2. subst. destruct x; reflexivity.
Qed.

Lemma array_from_sparse_tabulated (f : nat * nat -> R) (l : list (nat * nat))
      (n : nat) :
  (forall i j, In (i, j) l -> (i < n)%nat /\ (j < n)%nat) ->
  array_from_sparse l (map f l) n
  = Some (mk_mat n (fun i j => if mem i j l then f (i, j) else 0)).
Proof.
  intros Hrange. unfold array_from_sparse.
  rewrite length_map, Nat.eqb_refl. cbn [andb].
  replace (forallb _ l) with true.
  - f_equal. apply mk_mat_ext. intros i j _ _.
    rewrite combine_map_self. apply fold_assign_tabulated.
  - symmetry. apply forallb_forall. intros [i j] Hin. cbn [fst snd].
    destruct (Hrange i j Hin) as [Hi Hj].
    apply andb_true_iff. split; apply Nat.ltb_lt; assumption.
Qed.

Lemma In_triu_indices (n i j : nat) :
  In (i, j) (triu_indices n) <-> (i <= j)%nat /\ (j < n)%nat.
Proof.
  unfold triu_indices. rewrite in_flat_map. split.
  - intros (k & Hk & Hin). apply in_map_iff in Hin.
    destruct Hin as (j' & Heq & Hj'). inversion Heq; subst.
    apply in_seq in Hk, Hj'. lia.
  - intros [Hij Hj]. exists i. split; [apply in_seq; lia |].
    apply in_map_iff. exists j. split; [reflexivity | apply in_seq; lia].
Qed.

Lemma In_tril_indices (n i j : nat) :
  In (i, j) (tril_indices n) <-> (j <= i)%nat /\ (i < n)%nat.
Proof.
  unfold tril_indices. rewrite in_flat_map. split.
  - intros (k & Hk & Hin). apply in_map_iff in Hin.
    destruct Hin as (j' & Heq & Hj'). inversion Heq; subst.
    apply in_seq in Hk, Hj'. lia.
  - intros [Hij Hj]. exists i. split; [apply in_seq; lia |].
    apply in_map_iff. exists j. split; [reflexivity | apply in_seq; lia].
Qed.

Lemma length_triu_from (n a k : nat) :
  n = (a + k)%nat ->
  (2 * length (flat_map (fun i => map (fun j => (i, j)) (seq i (n - i)))
                 (seq a k)) = k * (k + 1))%nat.
Proof.
  revert a. induction k as [| k IH]; intros a Hn; [reflexivity |].
  cbn [seq flat_map]. rewrite length_app, length_map, length_seq.
  specialize (IH (S a)). rewrite Nat.mul_add_distr_l, IH by lia.
  replace (n - a)%nat with (S k) by lia. lia.
Qed.

Lemma length_triu_indices (n : nat) :
  (2 * length (triu_indices n) = n * (n + 1))%nat.
Proof. apply length_triu_from. reflexivity. Qed.

Lemma mat_dim_of_triangular (n : nat) :
  SymmetricMatrices.mat_dim_of (length (triu_indices n)) = Some n.
Proof.
  unfold SymmetricMatrices.mat_dim_of.
  pose proof (length_triu_indices n) as H.
  assert (E : (8 * length (triu_indices n) + 1 = (2 * n + 1) * (2 * n + 1))%nat)
    by lia.
  rewrite E, Nat.sqrt_square, Nat.eqb_refl.
  f_equal. replace (2 * n + 1 - 1)%nat with (n * 2)%nat by lia.
  apply Nat.div_mul. discriminate.
Qed.

End SparseFacts.

Module SymmetricFacts.
Import Arrays Matrices ArraysFacts SparseFacts SymmetricMatrices.
Local Open Scope R_scope.

Lemma mmap_mk_mat (f : R -> R) (n : nat) (g : nat -> nat -> R) :
  mmap f (mk_mat n g) = mk_mat n (fun i j => f (g i j)).
Proof.
  unfold mmap, mk_mat. rewrite map_map. apply map_ext. intros i.
  unfold mk_vec. apply map_map.
Qed.

Lemma mem_triu (n i j : nat) :
  (j < n)%nat -> mem i j (triu_indices n) = (i <=? j)%nat.
Proof.
  intros Hj. apply eq_true_iff_eq. rewrite mem_In, In_triu_indices, Nat.leb_le.
  tauto.
Qed.



End SymmetricFacts.

Module DiffeoFacts.
Import Arrays Matrices ArraysFacts SparseFacts UnitNormedRowsPLTDiffeo.
Local Open Scope R_scope.

Lemma insert_desc_after (x : nat * nat) (pre rest : list (nat * nat)) :
  (forall y, In y pre -> fst y = fst x) ->
  (forall y, In y rest -> (fst y < fst x)%nat) ->
  insert_desc x (pre ++ rest) = pre ++ x :: rest.
Proof.
  intros Hpre Hrest. induction pre as [| y pre IH]; cbn [app insert_desc].
  - destruct rest as [| z rest]; [reflexivity |].
    cbn [insert_desc].
    replace (fst z <? fst x)%nat with true; [reflexivity |].
    symmetry. apply Nat.ltb_lt, Hrest. left. reflexivity.
  - replace (fst y <? fst x)%nat with false.
    + rewrite IH; [reflexivity |]. intros z Hz. apply Hpre. right. exact Hz.
    + symmetry. apply Nat.ltb_ge. rewrite (Hpre y) by (left; reflexivity). lia.
Qed.

Lemma fold_insert_row (k : nat) (r pre rest : list (nat * nat)) :
  (forall y, In y pre -> fst y = k) ->
  (forall y, In y r -> fst y = k) ->
  (forall y, In y rest -> (fst y < k)%nat) ->
  fold_left (fun acc x => insert_desc x acc) r (pre ++ rest)
  = pre ++ r ++ rest.
Proof.
  revert pre. induction r as [| x r IH]; intros pre Hpre Hr Hrest;
    [reflexivity |].
  cbn [fold_left]. assert (Hx : fst x = k) by (apply Hr; left; reflexivity).
  rewrite insert_desc_after.
  - change (pre ++ x :: rest) with (pre ++ [x] ++ rest).
    rewrite app_assoc, IH.
    + rewrite <- app_assoc. reflexivity.
    + intros y Hy. apply in_app_or in Hy. destruct Hy as [Hy | [Hy | []]].
      * apply Hpre, Hy.
      * subst y. exact Hx.
    + intros y Hy. apply Hr. right. exact Hy.
    + exact Hrest.
  - intros y Hy. rewrite Hx. apply Hpre, Hy.
  - intros y Hy. rewrite Hx. apply Hrest, Hy.
Qed.

Lemma In_tril_indices_desc (n i j : nat) :
  In (i, j) (tril_indices_desc n) <-> (j <= i)%nat /\ (i < n)%nat.
Proof.
  unfold tril_indices_desc, tril_row. rewrite in_flat_map. split.
  - intros (k & Hk & Hin). apply in_map_iff in Hin.
    destruct Hin as (j' & Heq & Hj'). inversion Heq; subst.
    apply in_rev, in_seq in Hk. apply in_seq in Hj'. lia.
  - intros [Hij Hj]. exists i. split; [apply in_rev; rewrite rev_involutive; apply in_seq; lia |].
    apply in_map_iff. exists j. split; [reflexivity | apply in_seq; lia].
Qed.

Lemma sorted_desc_tril_indices (n : nat) :
  sorted_desc (tril_indices n) = tril_indices_desc n.
Proof.
  unfold sorted_desc, tril_indices, tril_indices_desc.
  induction n as [| n IH]; [reflexivity |].
  rewrite seq_S, flat_map_app, fold_left_app, IH.
  cbn [Nat.add flat_map]. rewrite app_nil_r, rev_app_distr.
  cbn [rev app flat_map]. fold (tril_row n).
  rewrite <- (app_nil_l (flat_map tril_row (rev (seq 0 n)))) at 1.
  rewrite (fold_insert_row n); [reflexivity | intros y [] | |].
  - intros y Hy. unfold tril_row in Hy. apply in_map_iff in Hy.
    destruct Hy as (j & <- & _). reflexivity.
  - intros [i j] Hy. apply (In_tril_indices_desc n i j) in Hy. cbn [fst]. lia.
Qed.

Lemma rev_concat_map {A : Type} (ls : list (list A)) :
  rev (concat ls) = concat (map (@rev A) (rev ls)).
Proof.
  induction ls as [| l ls IH]; [reflexivity |].
  cbn [concat rev]. rewrite rev_app_distr, IH, map_app, concat_app.
  cbn [map concat]. rewrite app_nil_r. reflexivity.
Qed.

Lemma firstn_tabulate {A : Type} (l : list A) (d : A) (k : nat) :
  (k <= length l)%nat -> firstn k l = map (fun j => nth j l d) (seq 0 k).
Proof.
  intros Hk. apply (nth_ext _ _ d d).
  - rewrite length_firstn, length_map, length_seq. lia.
  - intros i Hi. rewrite length_firstn in Hi.
    rewrite (nth_map_seq (fun j => nth j l d)) by lia.
    rewrite nth_firstn.
    replace (i <? k)%nat with true by (symmetry; apply Nat.ltb_lt; lia).
    reflexivity.
Qed.

Lemma map_flat_map_rows (f : nat * nat -> R) (l : list nat) :
  map f (flat_map tril_row l)
  = concat (map (fun i => map (fun j => f (i, j)) (seq 0 (S i))) l).
Proof.
  rewrite flat_map_concat_map, concat_map, map_map.
  f_equal. apply map_ext. intros i. unfold tril_row. apply map_map.
Qed.

Lemma row_prefix (n : nat) (p : mat) (i : nat) :
  is_square n p -> (i < n)%nat ->
  firstn (i + 1) (nth i p []) = map (fun j => entry p i j) (seq 0 (S i)).
Proof.
  intros [Hlen Hrows] Hi.
  assert (Hrow : length (nth i p []) = n).
  { rewrite Forall_forall in Hrows. apply Hrows, nth_In. lia. }
  rewrite Nat.add_1_r. apply firstn_tabulate. lia.
Qed.

Lemma flipped_data (n : nat) (p : mat) (c : R) :
  (1 <= n)%nat -> is_square n p -> entry p 0 0 = c ->
  flip (concat (map (fun i => flip (firstn (i + 1) (nth i p [])))
                  (seq 1 (n - 1)))) ++ [c]
  = map (fun ij => entry p (fst ij) (snd ij)) (tril_indices_desc n).
Proof.
  intros Hn Hsq Hc. unfold flip, tril_indices_desc.
  rewrite map_flat_map_rows. cbn [fst snd].
  replace (seq 0 n) with (0%nat :: seq 1 (n - 1))
    by (destruct n; [lia | cbn; rewrite Nat.sub_0_r; reflexivity]).
  cbn [rev]. rewrite map_app, concat_app. cbn [map concat seq].
  rewrite app_nil_r, Hc. f_equal.
  rewrite rev_concat_map, <- map_rev, map_map. f_equal.
  apply map_ext_in. intros i Hi. apply in_rev, in_seq in Hi.
  rewrite rev_involutive. apply (row_prefix n); [exact Hsq | lia].
Qed.

Lemma mem_tril_desc (n i j : nat) :
  (i < n)%nat -> mem i j (tril_indices_desc n) = (j <=? i)%nat.
Proof.
  intros Hi. apply eq_true_iff_eq.
  rewrite mem_In, In_tril_indices_desc, Nat.leb_le. tauto.
Qed.

Lemma from_product_to_mat_diffeomorphism (n : nat) (p : mat) (ones : bool) :
  (2 <= n)%nat -> is_square n p -> is_lower_triangular n p ->
  entry p 0 0 = (if ones then 1 else 0) ->
  bind (diffeomorphism n p) (fun v => _from_product_to_mat n v ones) = Some p.
Proof.
  intros Hn Hsq Hlow Hc. unfold diffeomorphism.
  set (rows := map _ (seq 1 (n - 1))).
  assert (Hcat : concatenate rows = Some (concat rows)).
  { unfold concatenate. destruct rows eqn:E; [| reflexivity].
    apply (f_equal (@length vec)) in E. unfold rows in E.
    rewrite length_map, length_seq in E. cbn in E. lia. }
  rewrite Hcat. cbn [bind]. unfold _from_product_to_mat, rows.
  rewrite sorted_desc_tril_indices.
  rewrite (flipped_data n p) by (try lia; assumption).
  rewrite (array_from_sparse_tabulated
             (fun ij => entry p (fst ij) (snd ij)) (tril_indices_desc n) n)
    by (intros i j Hin; apply In_tril_indices_desc in Hin; lia).
  f_equal. apply (mat_ext n); [apply is_square_mk_mat | exact Hsq |].
  intros i j Hi Hj. rewrite entry_mk_mat by assumption. cbn [fst snd].
  rewrite mem_tril_desc by assumption.
  destruct (j <=? i)%nat eqn:Hji; [reflexivity |].
  apply Nat.leb_gt in Hji. symmetry. apply Hlow; assumption.
Qed.

(** C4 -- Diffeo round trip, for matrices of size at least two.  For every
    [n >= 2] and every [n x n] lower-triangular matrix [p], the inverse
    diffeomorphism applied to the diffeomorphism of [p] returns [p] when
    [p[0,0] = 1], and the inverse tangent diffeomorphism applied to the tangent
    diffeomorphism of [p] returns [p] when [p[0,0] = 0]; no step raises. *)
Theorem diffeo_round_trip (n : nat) (p : mat) :
  (2 <= n)%nat -> is_square n p -> is_lower_triangular n p ->
  (entry p 0 0 = 1 ->
   bind (diffeomorphism n p) (inverse_diffeomorphism n) = Some p)
  /\ (entry p 0 0 = 0 ->
      bind (tangent_diffeomorphism n p) (inverse_tangent_diffeomorphism n)
      = Some p).
Proof.
  intros Hn Hsq Hlow. split; intros Hc.
  - apply (from_product_to_mat_diffeomorphism n p true); assumption.
  - apply (from_product_to_mat_diffeomorphism n p false); assumption.
Qed.

Lemma diffeo_round_trip_witness :
  bind (diffeomorphism 3 [[1; 0; 0]; [2; 3; 0]; [4; 5; 6]])
    (inverse_diffeomorphism 3)
  = Some [[1; 0; 0]; [2; 3; 0]; [4; 5; 6]]
  /\ bind (tangent_diffeomorphism 3 [[0; 0; 0]; [2; 3; 0]; [4; 5; 6]])
       (inverse_tangent_diffeomorphism 3)
     = Some [[0; 0; 0]; [2; 3; 0]; [4; 5; 6]].
Proof.
  split.
  - apply (diffeo_round_trip 3); [lia | | | reflexivity].
    + split; [reflexivity | repeat constructor].
    + intros i j Hij Hj.
      destruct i as [| [| [| i]]]; destruct j as [| [| [| j]]];
        try lia; reflexivity.
  - apply (diffeo_round_trip 3); [lia | | | reflexivity].
    + split; [reflexivity | repeat constructor].
    + intros i j Hij Hj.
      destruct i as [| [| [| i]]]; destruct j as [| [| [| j]]];
        try lia; reflexivity.
Defined.

(** C4, as stated for every size: the [1 x 1] matrix [[1]] is lower
    triangular with [p[0,0] = 1], but its diffeomorphism concatenates an empty
    list of rows, which raises, so the round trip yields no matrix. *)
Lemma diffeo_round_trip_fails_at_size_one :
  is_square 1 [[1]]
  /\ is_lower_triangular 1 [[1]]
  /\ entry [[1]] 0 0 = 1
  /\ diffeomorphism 1 [[1]] = None
  /\ bind (diffeomorphism 1 [[1]]) (inverse_diffeomorphism 1) <> Some [[1]].
Proof.
  split; [split; [reflexivity | repeat constructor] |].
  split; [intros i j Hij Hj; lia |].
  split; [reflexivity |].
  split; [reflexivity |].
  cbn. discriminate.
Qed.

End DiffeoFacts.

(** * Further properties of the Cholesky space *)

Module CholeskyProperties.
Import Arrays Matrices ArraysFacts CholeskyMetric CholeskyFacts.
Import PositiveLowerTriangularMatrices.
Local Open Scope R_scope.

Ltac shapes := repeat (progress lens).

Ltac entries_of :=
  repeat first
    [ rewrite entry_mzip by (shapes; lia)
    | rewrite entry_tril_below by (shapes; lia)
    | rewrite entry_vec_to_diag by (shapes; lia)
    | rewrite vnth_vzip by (shapes; lia)
    | rewrite vnth_vmap by (shapes; lia)
    | rewrite vnth_diagonal by (shapes; lia) ].

(** *** Sums of squares *)

Lemma sum_upto_nonneg (n : nat) (f : nat -> R) :
  (forall i, (i < n)%nat -> 0 <= f i) -> 0 <= sum_upto n f.
Proof.
  induction n as [| n IH]; intros H; cbn [sum_upto]; [lra |].
  assert (0 <= sum_upto n f) by (apply IH; intros; apply H; lia).
  assert (0 <= f n) by (apply H; lia). lra.
Qed.

Lemma sum_upto_zero (n : nat) (f : nat -> R) :
  (forall i, (i < n)%nat -> 0 <= f i) -> sum_upto n f = 0 ->
  forall i, (i < n)%nat -> f i = 0.
Proof.
  induction n as [| n IH]; intros Hpos Hsum i Hi; [lia |].
  cbn [sum_upto] in Hsum.
  assert (H1 : 0 <= sum_upto n f)
    by (apply sum_upto_nonneg; intros; apply Hpos; lia).
  assert (H2 : 0 <= f n) by (apply Hpos; lia).
  destruct (Nat.eq_dec i n) as [-> | Hne]; [lra |].
  apply IH; try lia; [intros; apply Hpos; lia | lra].
Qed.

Lemma sum_upto_all_zero (n : nat) (f : nat -> R) :
  (forall i, (i < n)%nat -> f i = 0) -> sum_upto n f = 0.
Proof.
  intros H. induction n as [| n IH]; cbn [sum_upto]; [reflexivity |].
  rewrite IH, (H n) by (intros; try apply H; lia). lra.
Qed.

Lemma sq_nonneg (x : R) : 0 <= x ^ 2.
Proof. apply pow2_ge_0. Qed.

Lemma sq_zero (x : R) : x ^ 2 = 0 -> x = 0.
Proof. intros H. cbn [pow] in H. nra. Qed.

(** *** exp and log stay in their spaces *)

(** X12 -- At a base point with strictly positive diagonal, [exp] of any
    square tangent vector is again a lower-triangular matrix with strictly
    positive diagonal, and [log] of any square matrix with strictly positive
    diagonal is lower triangular. *)
Theorem exp_log_stay_in_space (n : nat) (base_point : mat) :
  is_square n base_point -> has_positive_diagonal n base_point ->
  (forall tangent_vec : mat,
      is_square n tangent_vec ->
      is_square n (exp tangent_vec base_point)
      /\ is_lower_triangular n (exp tangent_vec base_point)
      /\ has_positive_diagonal n (exp tangent_vec base_point))
  /\ (forall pt : mat,
         is_square n pt -> has_positive_diagonal n pt ->
         is_square n (log pt base_point)
         /\ is_lower_triangular n (log pt base_point)).
Proof.
  intros [Hb Hbr] Hpos. split.
  - intros t [Ht _]. split; [apply is_square_exp, Hb | split].
    + intros i j Hij Hj. rewrite (entry_exp n) by (try assumption; lia).
      replace (j <? i)%nat with false by (symmetry; apply Nat.ltb_ge; lia).
      replace (i =? j)%nat with false by (symmetry; apply Nat.eqb_neq; lia).
      lra.
    + intros i Hi. rewrite (entry_exp n) by assumption.
      rewrite Nat.ltb_irrefl, Nat.eqb_refl.
      specialize (Hpos i Hi).
      pose proof (exp_pos (entry t i i / entry base_point i i)). nra.
  - intros p [Hp _] _. split; [apply is_square_log, Hp |].
    intros i j Hij Hj. rewrite (entry_log n) by (try assumption; lia).
    replace (j <? i)%nat with false by (symmetry; apply Nat.ltb_ge; lia).
    replace (i =? j)%nat with false by (symmetry; apply Nat.eqb_neq; lia).
    lra.
Qed.

(** X13 -- At a point of the Cholesky space, [exp] of the zero tangent vector
    is the base point and [log] of the base point is the zero matrix. *)
Theorem exp_zero_log_self (n : nat) (base_point : mat) :
  is_square n base_point -> is_lower_triangular n base_point ->
  has_positive_diagonal n base_point ->
  exp (zeros n) base_point = base_point
  /\ log base_point base_point = zeros n.
Proof.
  intros Hsq Hlow Hpos. pose proof Hsq as [Hb _]. split.
  - apply (mat_ext n); [apply is_square_exp, Hb | exact Hsq |].
    intros i j Hi Hj.
    rewrite (entry_exp n) by (try assumption; apply length_mk_mat).
    unfold zeros. rewrite !entry_mk_mat by assumption.
    destruct (j <? i)%nat eqn:Hlt; destruct (i =? j)%nat eqn:Heq.
    + apply Nat.ltb_lt in Hlt. apply Nat.eqb_eq in Heq. lia.
    + lra.
    + apply Nat.eqb_eq in Heq. subst j. specialize (Hpos i Hi).
      replace (0 / entry base_point i i) with 0 by (field; lra).
      rewrite exp_0. lra.
    + apply Nat.ltb_ge in Hlt. apply Nat.eqb_neq in Heq.
      rewrite (Hlow i j) by lia. lra.
  - apply (mat_ext n); [apply is_square_log, Hb | apply is_square_mk_mat |].
    intros i j Hi Hj. rewrite (entry_log n) by assumption.
    unfold zeros. rewrite entry_mk_mat by assumption.
    destruct (j <? i)%nat; destruct (i =? j)%nat eqn:Heq; try lra.
    + apply Nat.eqb_eq in Heq. subst j. specialize (Hpos i Hi).
      replace (entry base_point i i / entry base_point i i) with 1
        by (field; lra).
      rewrite ln_1. lra.
    + apply Nat.eqb_eq in Heq. subst j. specialize (Hpos i Hi).
      replace (entry base_point i i / entry base_point i i) with 1
        by (field; lra).
      rewrite ln_1. lra.
Qed.

(** *** The inner product in closed form *)

Lemma vzip_map {A : Type} (op : R -> R -> R) (f g : A -> R) (l : list A) :
  vzip op (map f l) (map g l) = map (fun x => op (f x) (g x)) l.
Proof.
  unfold vzip, mk_vec. rewrite length_map.
  apply (nth_ext _ _ 0 0).
  - rewrite !length_map, length_seq. reflexivity.
  - intros i Hi. rewrite length_map, length_seq in Hi.
    rewrite (nth_map_seq (fun i => op (vnth (map f l) i) (vnth (map g l) i)))
      by exact Hi.
    unfold vnth. destruct l as [| x0 l0] eqn:El; [cbn in Hi; lia |].
    rewrite <- El in *.
    rewrite (nth_indep (map f l) 0 (f x0)) by (rewrite length_map; exact Hi).
    rewrite (nth_indep (map g l) 0 (g x0)) by (rewrite length_map; exact Hi).
    rewrite (nth_indep (map _ l) 0 (op (f x0) (g x0)))
      by (rewrite length_map; exact Hi).
    rewrite (map_nth f l x0 i), (map_nth g l x0 i).
    symmetry. apply (map_nth (fun x => op (f x) (g x)) l x0 i).
Qed.

Lemma vsum_map_seq (k : nat) (h : nat -> R) :
  vsum (map h (seq 0 k)) = sum_upto k h.
Proof. apply vsum_mk_vec. Qed.

Lemma vsum_rows (g : nat -> nat) (h : nat * nat -> R) (n : nat) :
  vsum (map h (flat_map (fun i => map (fun j => (i, j)) (seq 0 (g i)))
                 (seq 0 n)))
  = sum_upto n (fun i => sum_upto (g i) (fun j => h (i, j))).
Proof.
  induction n as [| n IH]; [reflexivity |].
  rewrite seq_S, flat_map_app, map_app, vsum_app, IH.
  cbn [Nat.add flat_map sum_upto]. rewrite app_nil_r, map_map, vsum_map_seq.
  reflexivity.
Qed.

Lemma strictly_lower_inner_product_closed (n : nat) (a b : mat) :
  length a = n -> length b = n ->
  strictly_lower_inner_product a b
  = sum_upto n (fun i => sum_upto i (fun j => entry a i j * entry b i j)).
Proof.
  intros Ha Hb. unfold strictly_lower_inner_product, dot, tril_to_vec_strict.
  rewrite Ha, Hb, vzip_map. unfold tril_indices_strict.
  rewrite (vsum_rows (fun i => i)). reflexivity.
Qed.

Lemma diag_inner_product_closed (n : nat) (a b base : mat) :
  length a = n -> length b = n -> length base = n ->
  diag_inner_product a b base
  = sum_upto n (fun i => entry a i i * entry b i i / entry base i i ^ 2).
Proof.
  intros Ha Hb Hc. unfold diag_inner_product.
  unfold vzip at 1. rewrite vsum_mk_vec. lens. rewrite Ha.
  apply sum_upto_ext. intros i Hi. entries.
  unfold powerRZ. cbn [Pos.to_nat Pos.iter_op Nat.add]. reflexivity.
Qed.

Lemma ln_quotient (x y : R) : 0 < x -> 0 < y -> ln (x / y) = ln x - ln y.
Proof.
  intros Hx Hy. unfold Rdiv.
  rewrite ln_mult by (try apply Rinv_0_lt_compat; assumption).
  rewrite ln_Rinv by assumption. lra.
Qed.

(** X14 -- At a base point with strictly positive diagonal, [inner_product] is
    symmetric in its two tangent vectors and non-negative on a vector paired
    with itself; on a lower-triangular vector it vanishes only at zero. *)
Theorem inner_product_symmetric_positive (n : nat) (base_point : mat) :
  is_square n base_point -> has_positive_diagonal n base_point ->
  (forall a b : mat,
      is_square n a -> is_square n b ->
      inner_product a b base_point = inner_product b a base_point)
  /\ (forall v : mat,
         is_square n v ->
         0 <= inner_product v v base_point
         /\ (is_lower_triangular n v ->
             inner_product v v base_point = 0 -> v = zeros n)).
Proof.
  intros [Hb _] Hpos. split.
  - intros a b [Ha _] [Hb' _]. unfold inner_product.
    rewrite !(diag_inner_product_closed n),
      !(strictly_lower_inner_product_closed n) by assumption.
    f_equal; apply sum_upto_ext; intros i Hi;
      [lra | apply sum_upto_ext; intros j Hj; lra].
  - intros v Hsq. pose proof Hsq as [Hv _]. unfold inner_product.
    rewrite (diag_inner_product_closed n),
      (strictly_lower_inner_product_closed n) by assumption.
    assert (Hd : forall i, (i < n)%nat ->
                 0 <= entry v i i * entry v i i / entry base_point i i ^ 2).
    { intros i Hi. specialize (Hpos i Hi).
      apply Rmult_le_pos; [nra |].
      apply Rlt_le, Rinv_0_lt_compat. cbn [pow]. nra. }
    assert (Hs : forall i, (i < n)%nat ->
                 0 <= sum_upto i (fun j => entry v i j * entry v i j)).
    { intros i Hi. apply sum_upto_nonneg. intros j Hj. nra. }
    pose proof (sum_upto_nonneg n _ Hd) as H1.
    pose proof (sum_upto_nonneg n _ Hs) as H2.
    split; [lra |].
    intros Hlow Hzero.
    apply (mat_ext n); [exact Hsq | apply is_square_mk_mat |].
    intros i j Hi Hj. unfold zeros. rewrite entry_mk_mat by assumption.
    destruct (Nat.lt_trichotomy i j) as [Hij | [-> | Hij]].
    + apply Hlow; assumption.
    + assert (E : entry v j j * entry v j j / entry base_point j j ^ 2 = 0)
        by (apply (sum_upto_zero n _ Hd); [lra | exact Hi]).
      specialize (Hpos j Hi).
      assert (E2 : entry v j j * entry v j j = 0).
      { apply (Rmult_eq_reg_r (/ entry base_point j j ^ 2)).
        - rewrite Rmult_0_l. exact E.
        - apply Rinv_neq_0_compat. cbn [pow]. nra. }
      nra.
    + assert (E : sum_upto i (fun j0 => entry v i j0 * entry v i j0) = 0)
        by (apply (sum_upto_zero n _ Hs); [lra | exact Hi]).
      assert (E2 : entry v i j * entry v i j = 0).
      { apply (sum_upto_zero i (fun j0 => entry v i j0 * entry v i j0));
          [intros; nra | exact E | exact Hij]. }
      nra.
Qed.

(** X15 -- Between matrices with strictly positive diagonals, [squared_dist]
    is the [inner_product] of [log pt base_point] with itself at the base
    point. *)
Theorem squared_dist_is_squared_norm_of_log (n : nat) (pt base_point : mat) :
  is_square n pt -> has_positive_diagonal n pt ->
  is_square n base_point -> has_positive_diagonal n base_point ->
  squared_dist pt base_point
  = inner_product (log pt base_point) (log pt base_point) base_point.
Proof.
  intros [Hp _] Hppos [Hb _] Hbpos.
  rewrite (squared_dist_eq_closed_form n) by assumption.
  unfold inner_product, squared_dist_closed_form.
  assert (Hl : length (log pt base_point) = n)
    by (apply is_square_log, Hp).
  rewrite (diag_inner_product_closed n),
    (strictly_lower_inner_product_closed n) by assumption.
  f_equal.
  - apply sum_upto_ext. intros i Hi. rewrite (entry_log n) by assumption.
    rewrite Nat.ltb_irrefl, Nat.eqb_refl.
    specialize (Hppos i Hi). specialize (Hbpos i Hi).
    rewrite ln_quotient by assumption. cbn [pow]. field. lra.
  - apply sum_upto_ext. intros i Hi. apply sum_upto_ext. intros j Hj.
    rewrite (entry_log n) by (try assumption; lia).
    replace (j <? i)%nat with true by (symmetry; apply Nat.ltb_lt; lia).
    replace (i =? j)%nat with false by (symmetry; apply Nat.eqb_neq; lia).
    cbn [pow]. lra.
Qed.

(** X16 -- Between two points of the Cholesky space (lower-triangular
    matrices with strictly positive diagonal) [squared_dist] is symmetric and
    non-negative, and it is zero exactly when the points are equal. *)
Theorem cholesky_squared_dist_is_a_metric (n : nat) (a b : mat) :
  is_square n a -> is_square n b ->
  is_lower_triangular n a -> has_positive_diagonal n a ->
  is_lower_triangular n b -> has_positive_diagonal n b ->
  squared_dist a b = squared_dist b a
  /\ 0 <= squared_dist a b
  /\ (squared_dist a b = 0 <-> a = b).
Proof.
  intros Hsa Hsb Hla Hpa Hlb Hpb.
  pose proof Hsa as [Ha _]. pose proof Hsb as [Hb _].
  rewrite !(squared_dist_eq_closed_form n) by assumption.
  unfold squared_dist_closed_form.
  assert (Hd : forall i, (i < n)%nat ->
               0 <= (ln (entry a i i) - ln (entry b i i)) ^ 2)
    by (intros; apply sq_nonneg).
  assert (Hs : forall i, (i < n)%nat ->
               0 <= sum_upto i (fun j => (entry a i j - entry b i j) ^ 2))
    by (intros; apply sum_upto_nonneg; intros; apply sq_nonneg).
  pose proof (sum_upto_nonneg n _ Hd) as H1.
  pose proof (sum_upto_nonneg n _ Hs) as H2.
  split; [| split; [lra |]].
  - f_equal; apply sum_upto_ext; intros i Hi;
      [cbn [pow]; lra | apply sum_upto_ext; intros j Hj; cbn [pow]; lra].
  - split.
    + intros Hzero. apply (mat_ext n); try assumption.
      intros i j Hi Hj.
      destruct (Nat.lt_trichotomy i j) as [Hij | [-> | Hij]].
      * rewrite (Hla i j), (Hlb i j) by assumption. reflexivity.
      * apply ln_inv; [apply Hpa, Hi | apply Hpb, Hi |].
        assert (E : (ln (entry a j j) - ln (entry b j j)) ^ 2 = 0)
          by (apply (sum_upto_zero n _ Hd); [lra | exact Hi]).
        apply sq_zero in E. lra.
      * assert (E : sum_upto i (fun j0 => (entry a i j0 - entry b i j0) ^ 2)
                    = 0)
          by (apply (sum_upto_zero n _ Hs); [lra | exact Hi]).
        assert (E2 : (entry a i j - entry b i j) ^ 2 = 0).
        { apply (sum_upto_zero i
                   (fun j0 => (entry a i j0 - entry b i j0) ^ 2));
            [intros; apply sq_nonneg | exact E | exact Hij]. }
        apply sq_zero in E2. lra.
    + intros <-.
      rewrite !sum_upto_all_zero; [lra | |].
      * intros i Hi. apply sum_upto_all_zero. intros j Hj. cbn [pow]. lra.
      * intros i Hi. cbn [pow]. lra.
Qed.

(** *** The projection onto the Cholesky space *)

Lemma gs_atol_pos : 0 < gs_atol.
Proof. unfold gs_atol. apply Rinv_0_lt_compat, pow_lt. lra. Qed.

Lemma floor_at_atol_ge (x : R) : gs_atol <= floor_at_atol x.
Proof. unfold floor_at_atol. destruct (Rlt_dec x gs_atol); lra. Qed.

Lemma floor_at_atol_fixed (x : R) :
  floor_at_atol (Rabs x) = x <-> gs_atol <= x.
Proof.
  pose proof gs_atol_pos as Hpos. split.
  - intros <-. apply floor_at_atol_ge.
  - intros Hx. rewrite Rabs_pos_eq by lra.
    unfold floor_at_atol. destruct (Rlt_dec x gs_atol); lra.
Qed.

Lemma entry_projection (n : nat) (pt : mat) (i j : nat) :
  length pt = n -> (i < n)%nat -> (j < n)%nat ->
  entry (projection pt) i j
  = (if (i =? j)%nat then floor_at_atol (Rabs (entry pt i i)) else 0)
    + (if (j <? i)%nat then entry pt i j else 0).
Proof.
  intros Hp Hi Hj. unfold projection. entries_of. reflexivity.
Qed.

Lemma is_square_projection (n : nat) (pt : mat) :
  length pt = n -> is_square n (projection pt).
Proof.
  intros Hp. unfold projection, mzip at 1. shapes. rewrite Hp.
  apply is_square_mk_mat.
Qed.

Lemma projection_fixed_iff (n : nat) (pt : mat) :
  is_square n pt ->
  (projection pt = pt <->
   is_lower_triangular n pt
   /\ forall i, (i < n)%nat -> gs_atol <= entry pt i i).
Proof.
  intros Hsq. pose proof Hsq as [Hp _]. split.
  - intros E. split.
    + intros i j Hij Hj. rewrite <- E.
      rewrite (entry_projection n) by (try assumption; lia).
      replace (i =? j)%nat with false by (symmetry; apply Nat.eqb_neq; lia).
      replace (j <? i)%nat with false by (symmetry; apply Nat.ltb_ge; lia).
      lra.
    + intros i Hi. apply floor_at_atol_fixed.
      assert (E2 : entry (projection pt) i i = entry pt i i) by (rewrite E; reflexivity).
      rewrite (entry_projection n) in E2 by assumption.
      rewrite Nat.eqb_refl, Nat.ltb_irrefl in E2. lra.
  - intros [Hlow Hdiag].
    apply (mat_ext n); [apply is_square_projection, Hp | exact Hsq |].
    intros i j Hi Hj. rewrite (entry_projection n) by assumption.
    destruct (Nat.lt_trichotomy i j) as [Hij | [-> | Hij]].
    + replace (i =? j)%nat with false by (symmetry; apply Nat.eqb_neq; lia).
      replace (j <? i)%nat with false by (symmetry; apply Nat.ltb_ge; lia).
      rewrite (Hlow i j) by assumption. lra.
    + rewrite Nat.eqb_refl, Nat.ltb_irrefl.
      rewrite (proj2 (floor_at_atol_fixed (entry pt j j))) by (apply Hdiag, Hi).
      lra.
    + replace (i =? j)%nat with false by (symmetry; apply Nat.eqb_neq; lia).
      replace (j <? i)%nat with true by (symmetry; apply Nat.ltb_lt; lia).
      lra.
Qed.

(** X17 -- [projection] of any square matrix is lower triangular with strictly
    positive diagonal, projecting twice is projecting once, and the matrices
    it leaves unchanged are exactly the lower-triangular ones whose diagonal
    entries are at least [gs.atol]. *)
Theorem projection_onto_cholesky_space (n : nat) (pt : mat) :
  is_square n pt ->
  (is_square n (projection pt)
   /\ is_lower_triangular n (projection pt)
   /\ has_positive_diagonal n (projection pt))
  /\ projection (projection pt) = projection pt
  /\ (projection pt = pt <->
      is_lower_triangular n pt
      /\ forall i, (i < n)%nat -> gs_atol <= entry pt i i).
Proof.
  intros Hsq. pose proof Hsq as [Hp _].
  assert (Hlow : is_lower_triangular n (projection pt)).
  { intros i j Hij Hj. rewrite (entry_projection n) by (try assumption; lia).
    replace (i =? j)%nat with false by (symmetry; apply Nat.eqb_neq; lia).
    replace (j <? i)%nat with false by (symmetry; apply Nat.ltb_ge; lia).
    lra. }
  assert (Hdiag : forall i, (i < n)%nat -> gs_atol <= entry (projection pt) i i).
  { intros i Hi. rewrite (entry_projection n) by assumption.
    rewrite Nat.eqb_refl, Nat.ltb_irrefl.
    pose proof (floor_at_atol_ge (Rabs (entry pt i i))). lra. }
  split; [split; [apply is_square_projection, Hp | split; [exact Hlow |]] |].
  - intros i Hi. pose proof gs_atol_pos. specialize (Hdiag i Hi). lra.
  - split; [| apply projection_fixed_iff, Hsq].
    apply (projection_fixed_iff n);
      [apply is_square_projection, Hp | split; assumption].
Qed.

(** *** Instances *)

Lemma exp_log_stay_in_space_witness :
  has_positive_diagonal 2 (exp [[1; 7]; [5; -1]] [[2; 0]; [1; 3]])
  /\ is_lower_triangular 2 (log [[1; 7]; [5; 4]] [[2; 0]; [1; 3]]).
Proof.
  assert (Hsq : is_square 2 [[2; 0]; [1; 3]]) by square_ok.
  assert (Hpos : has_positive_diagonal 2 [[2; 0]; [1; 3]]) by positive_ok.
  destruct (exp_log_stay_in_space 2 [[2; 0]; [1; 3]] Hsq Hpos) as [H1 H2].
  split.
  - apply (H1 [[1; 7]; [5; -1]]). square_ok.
  - apply (H2 [[1; 7]; [5; 4]]); [square_ok | positive_ok].
Defined.

Lemma exp_zero_log_self_witness :
  exp (zeros 2) [[2; 0]; [1; 3]] = [[2; 0]; [1; 3]].
Proof.
  apply (exp_zero_log_self 2); [square_ok | lower_ok | positive_ok].
Defined.

Lemma inner_product_symmetric_positive_witness :
  inner_product [[1; 0]; [5; -1]] [[4; 0]; [2; 7]] [[2; 0]; [1; 3]]
  = inner_product [[4; 0]; [2; 7]] [[1; 0]; [5; -1]] [[2; 0]; [1; 3]]
  /\ 0 <= inner_product [[1; 0]; [5; -1]] [[1; 0]; [5; -1]] [[2; 0]; [1; 3]].
Proof.
  assert (Hsq : is_square 2 [[2; 0]; [1; 3]]) by square_ok.
  assert (Hpos : has_positive_diagonal 2 [[2; 0]; [1; 3]]) by positive_ok.
  destruct (inner_product_symmetric_positive 2 [[2; 0]; [1; 3]] Hsq Hpos)
    as [H1 H2].
  split.
  - apply H1; square_ok.
  - apply H2. square_ok.
Defined.

Lemma squared_dist_is_squared_norm_of_log_witness :
  squared_dist [[1; 0]; [4; 2]] [[2; 0]; [1; 3]]
  = inner_product (log [[1; 0]; [4; 2]] [[2; 0]; [1; 3]])
      (log [[1; 0]; [4; 2]] [[2; 0]; [1; 3]]) [[2; 0]; [1; 3]].
Proof.
  apply (squared_dist_is_squared_norm_of_log 2);
    [square_ok | positive_ok | square_ok | positive_ok].
Defined.

Lemma cholesky_squared_dist_is_a_metric_witness :
  squared_dist [[1; 0]; [4; 2]] [[2; 0]; [1; 3]] = 0
  <-> [[1; 0]; [4; 2]] = [[2; 0]; [1; 3]].
Proof.
  apply (cholesky_squared_dist_is_a_metric 2 [[1; 0]; [4; 2]] [[2; 0]; [1; 3]]);
    [square_ok | square_ok | lower_ok | positive_ok | lower_ok | positive_ok].
Defined.

Lemma projection_onto_cholesky_space_witness :
  projection (projection [[-1; 5]; [2; 0]]) = projection [[-1; 5]; [2; 0]].
Proof.
  assert (Hsq : is_square 2 [[-1; 5]; [2; 0]]) by square_ok.
  exact (proj1 (proj2 (projection_onto_cholesky_space 2 _ Hsq))).
Defined.

End CholeskyProperties.

(** * Further properties of the symmetric matrices *)

Module SymmetricProperties.
Import Arrays Matrices ArraysFacts SparseFacts SymmetricMatrices SymmetricFacts.
Local Open Scope R_scope.

(** *** Data written at duplicate-free indices is a table over the indices *)

Lemma index_pair_dec (x y : nat * nat) : {x = y} + {x <> y}.
Proof. decide equality; apply Nat.eq_dec. Qed.

Lemma tabulate_data (l : list (nat * nat)) (data : vec) :
  NoDup l -> length data = length l ->
  exists f : nat * nat -> R, data = map f l.
Proof.
  intros Hnd. revert data. induction Hnd as [| x l Hx Hnd IH]; intros data Hlen.
  - destruct data; [| discriminate]. exists (fun _ => 0). reflexivity.
  - destruct data as [| d data]; [discriminate |].
    destruct (IH data) as [f Hf]; [cbn in Hlen; lia |].
    exists (fun y => if index_pair_dec y x then d else f y).
    cbn [map]. destruct (index_pair_dec x x) as [_ | Hc]; [| congruence].
    f_equal. rewrite Hf. apply map_ext_in. intros y Hy.
    destruct (index_pair_dec y x) as [-> | _]; [contradiction | reflexivity].
Qed.

Lemma NoDup_map_pair (i : nat) (l : list nat) :
  NoDup l -> NoDup (map (fun j => (i, j)) l).
Proof.
  intros H. induction H as [| j l Hj H IH]; cbn [map]; constructor.
  - intros Hin. apply in_map_iff in Hin. destruct Hin as (j' & E & Hj').
    inversion E; subst. contradiction.
  - exact IH.
Qed.

Lemma NoDup_rows (g : nat -> list nat) (ls : list nat) :
  NoDup ls -> (forall i, NoDup (g i)) ->
  NoDup (flat_map (fun i => map (fun j => (i, j)) (g i)) ls).
Proof.
  intros Hls Hg. induction Hls as [| i ls Hi Hls IH]; [constructor |].
  cbn [flat_map]. apply NoDup_app.
  - apply NoDup_map_pair, Hg.
  - exact IH.
  - intros [a b] H1 H2. apply in_map_iff in H1. destruct H1 as (j & E & _).
    inversion E; subst. apply in_flat_map in H2. destruct H2 as (k & Hk & Hin).
    apply in_map_iff in Hin. destruct Hin as (j' & E' & _).
    inversion E'; subst. contradiction.
Qed.

Lemma NoDup_triu_indices (n : nat) : NoDup (triu_indices n).
Proof. apply NoDup_rows; intros; apply seq_NoDup. Qed.

(** *** [projection] *)

Lemma entry_to_symmetric (n : nat) (m : mat) (i j : nat) :
  length m = n -> (i < n)%nat -> (j < n)%nat ->
  entry (to_symmetric m) i j = (entry m i j + entry m j i) / 2.
Proof.
  intros Hm Hi Hj. unfold to_symmetric, transpose, mzip.
  rewrite mmap_mk_mat, Hm.
  repeat (rewrite entry_mk_mat by assumption). reflexivity.
Qed.

Lemma is_square_to_symmetric (n : nat) (m : mat) :
  length m = n -> is_square n (to_symmetric m).
Proof.
  intros Hm. unfold to_symmetric, mzip. rewrite mmap_mk_mat, Hm.
  apply is_square_mk_mat.
Qed.

(** X18 -- [projection] of any square matrix is symmetric, projecting twice is
    projecting once, and the matrices it leaves unchanged are exactly the
    symmetric ones. *)
Theorem projection_onto_symmetric_matrices (n : nat) (pt : mat) :
  is_square n pt ->
  (is_square n (projection pt) /\ is_symmetric n (projection pt))
  /\ projection (projection pt) = projection pt
  /\ (projection pt = pt <-> is_symmetric n pt).
Proof.
  intros Hsq. pose proof Hsq as [Hp _]. unfold projection.
  assert (Hs : is_symmetric n (to_symmetric pt)).
  { intros i j Hi Hj. rewrite !(entry_to_symmetric n) by assumption. lra. }
  assert (Hfix : forall m, is_square n m ->
                 (to_symmetric m = m <-> is_symmetric n m)).
  { intros m Hm. pose proof Hm as [Hl _]. split.
    - intros E i j Hi Hj. rewrite <- E.
      rewrite !(entry_to_symmetric n) by assumption. lra.
    - intros Hsym. apply (mat_ext n);
        [apply is_square_to_symmetric, Hl | exact Hm |].
      intros i j Hi Hj. rewrite (entry_to_symmetric n) by assumption.
      rewrite (Hsym j i) by assumption. lra. }
  split; [split; [apply is_square_to_symmetric, Hp | exact Hs] |].
  split; [| apply Hfix, Hsq].
  apply Hfix; [apply is_square_to_symmetric, Hp | exact Hs].
Qed.

(** *** [matrix_representation] on an arbitrary vector *)

Lemma mat_dim_of_spec (k d : nat) :
  mat_dim_of k = Some d <-> (2 * k = d * (d + 1))%nat.
Proof.
  unfold mat_dim_of. split.
  - set (s := Nat.sqrt (8 * k + 1)).
    destruct (s * s =? 8 * k + 1)%nat eqn:E; [| discriminate].
    apply Nat.eqb_eq in E. intros H.
    assert (Hd : ((s - 1) / 2)%nat = d) by congruence.
    clear H. clearbody s.
    pose proof (Nat.div_mod_eq s 2) as Hs.
    assert (Hm : (s mod 2 < 2)%nat) by (apply Nat.mod_upper_bound; discriminate).
    set (q := (s / 2)%nat) in *. set (r := (s mod 2)%nat) in *.
    clearbody q r.
    assert (Hr : r = 1%nat).
    { destruct r as [| [| r]]; [| reflexivity | lia].
      exfalso. subst s. nia. }
    subst r. subst s.
    replace ((2 * q + 1 - 1) / 2)%nat with q in Hd.
    + subst d. nia.
    + replace (2 * q + 1 - 1)%nat with (q * 2)%nat by lia.
      symmetry. apply Nat.div_mul. discriminate.
  - intros H.
    assert (E : (8 * k + 1 = (2 * d + 1) * (2 * d + 1))%nat) by nia.
    rewrite E, Nat.sqrt_square, Nat.eqb_refl.
    f_equal. replace (2 * d + 1 - 1)%nat with (d * 2)%nat by lia.
    apply Nat.div_mul. discriminate.
Qed.

Lemma matrix_representation_tabulated (n : nat) (f : nat * nat -> R) :
  matrix_representation (map f (triu_indices n))
  = Some (mk_mat n (fun i j =>
      ((if (i <=? j)%nat then f (i, j) else 0)
       + (if (j <=? i)%nat then f (j, i) else 0)) / 2
      * (2 * 1 - (if (i =? j)%nat then 1 else 0)))).
Proof.
  unfold matrix_representation.
  rewrite length_map, mat_dim_of_triangular.
  rewrite (array_from_sparse_tabulated f (triu_indices n) n)
    by (intros i j Hin; apply In_triu_indices in Hin; lia).
  unfold to_symmetric, transpose, ones, eye, mzip.
  rewrite !mmap_mk_mat, !length_mk_mat. f_equal.
  apply mk_mat_ext. intros i j Hi Hj.
  repeat (rewrite entry_mk_mat by assumption).
  rewrite !mem_triu by assumption. reflexivity.
Qed.


Lemma projection_onto_symmetric_matrices_witness :
  projection (projection [[1; 2]; [4; 3]]) = projection [[1; 2]; [4; 3]].
Proof.
  assert (Hsq : is_square 2 [[1; 2]; [4; 3]])
    by (split; [reflexivity | repeat constructor]).
  exact (proj1 (proj2 (projection_onto_symmetric_matrices 2 _ Hsq))).
Defined.


End SymmetricProperties.

(** * Further properties of the row-normalised diffeomorphism *)

Module DiffeoProperties.
Import Arrays Matrices ArraysFacts SparseFacts UnitNormedRowsPLTDiffeo DiffeoFacts.
Import SymmetricProperties.
Local Open Scope R_scope.

Lemma NoDup_tril_indices_desc (n : nat) : NoDup (tril_indices_desc n).
Proof.
  unfold tril_indices_desc, tril_row. apply NoDup_rows.
  - apply NoDup_rev, seq_NoDup.
  - intros i. apply seq_NoDup.
Qed.

Lemma length_tril_indices_desc (n : nat) :
  (2 * length (tril_indices_desc n) = n * (n + 1))%nat.
Proof.
  unfold tril_indices_desc. induction n as [| n IH]; [reflexivity |].
  rewrite seq_S, rev_app_distr. cbn [rev app flat_map Nat.add].
  rewrite length_app. unfold tril_row at 1. rewrite length_map, length_seq.
  lia.
Qed.

(** The diffeomorphism in terms of entries. *)
Lemma diffeomorphism_tabulated (n : nat) (p : mat) :
  (2 <= n)%nat -> is_square n p ->
  diffeomorphism n p
  = Some (concat (map (fun i => rev (map (fun j => entry p i j) (seq 0 (S i))))
                    (seq 1 (n - 1)))).
Proof.
  intros Hn Hsq. unfold diffeomorphism.
  assert (E : map (fun i => flip (firstn (i + 1) (nth i p []))) (seq 1 (n - 1))
              = map (fun i => rev (map (fun j => entry p i j) (seq 0 (S i))))
                  (seq 1 (n - 1))).
  { apply map_ext_in. intros i Hi. apply in_seq in Hi. unfold flip.
    rewrite (row_prefix n) by (try assumption; lia). reflexivity. }
  rewrite E. unfold concatenate.
  destruct (seq 1 (n - 1)) as [| i0 rest] eqn:E2; [| reflexivity].
  apply (f_equal (@length nat)) in E2. rewrite length_seq in E2. cbn in E2. lia.
Qed.

(** X20 -- On an [n x n] matrix [diffeomorphism] raises exactly when
    [n <= 1], and a result it returns has [n(n+1)/2 - 1] entries. *)
Theorem diffeomorphism_defined_from_size_two (n : nat) (p : mat) :
  is_square n p ->
  (diffeomorphism n p = None <-> (n <= 1)%nat)
  /\ (forall v : vec, diffeomorphism n p = Some v ->
                      (length v + 1 = n * (n + 1) / 2)%nat).
Proof.
  intros Hsq. split.
  - unfold diffeomorphism, concatenate. split.
    + destruct (seq 1 (n - 1)) as [| i0 rest] eqn:E; [| discriminate].
      intros _. apply (f_equal (@length nat)) in E. rewrite length_seq in E.
      cbn in E. lia.
    + intros Hn. replace (n - 1)%nat with 0%nat by lia. reflexivity.
  - intros v Hv.
    destruct (Nat.le_gt_cases n 1) as [Hn | Hn].
    + unfold diffeomorphism, concatenate in Hv.
      replace (n - 1)%nat with 0%nat in Hv by lia. discriminate.
    + rewrite diffeomorphism_tabulated in Hv by (try assumption; lia).
      inversion Hv as [Hv']. clear Hv Hv'.
      assert (H : forall k, (2 * (length (concat (map
                  (fun i => rev (map (fun j => entry p i j) (seq 0 (S i))))
                  (seq 1 k))) + 1) = (k + 1) * (k + 2))%nat).
      { induction k as [| k IH]; [reflexivity |].
        rewrite seq_S, map_app, concat_app, length_app.
        cbn [map concat]. rewrite app_nil_r, length_rev, length_map, length_seq.
        lia. }
      specialize (H (n - 1)%nat).
      replace ((n - 1 + 1) * (n - 1 + 2))%nat with (n * (n + 1))%nat in H by nia.
      rewrite <- H.
      replace (2 * (length (concat (map
                  (fun i => rev (map (fun j => entry p i j) (seq 0 (S i))))
                  (seq 1 (n - 1)))) + 1))%nat
        with ((length (concat (map
                  (fun i => rev (map (fun j => entry p i j) (seq 0 (S i))))
                  (seq 1 (n - 1)))) + 1) * 2)%nat by lia.
      rewrite Nat.div_mul by discriminate. reflexivity.
Qed.

(** *** The inverse, then the diffeomorphism *)

Lemma concatenate_nonempty (rows : list vec) :
  (0 < length rows)%nat -> concatenate rows = Some (concat rows).
Proof. destruct rows; cbn; [lia | reflexivity]. Qed.

Lemma last_tril_indices_desc (n : nat) :
  (1 <= n)%nat ->
  exists l, tril_indices_desc n = l ++ [(0%nat, 0%nat)].
Proof.
  intros Hn. unfold tril_indices_desc.
  replace (seq 0 n) with (0%nat :: seq 1 (n - 1))
    by (destruct n; [lia | cbn; rewrite Nat.sub_0_r; reflexivity]).
  cbn [rev]. rewrite flat_map_app. cbn [flat_map tril_row seq map app].
  eexists. reflexivity.
Qed.

Lemma from_product_to_mat_then_diffeomorphism (n : nat) (v : vec)
      (ones : bool) :
  (2 <= n)%nat -> (length v + 1 = n * (n + 1) / 2)%nat ->
  exists m : mat,
    _from_product_to_mat n v ones = Some m
    /\ is_square n m /\ is_lower_triangular n m
    /\ entry m 0 0 = (if ones then 1 else 0)
    /\ diffeomorphism n m = Some v.
Proof.
  intros Hn Hlen. set (c := if ones then 1 else 0).
  pose proof (length_tril_indices_desc n) as HlenD.
  assert (Hdiv : (2 * (n * (n + 1) / 2) = n * (n + 1))%nat).
  { replace (n * (n + 1))%nat with (length (tril_indices_desc n) * 2)%nat
      by lia.
    rewrite Nat.div_mul by discriminate. lia. }
  destruct (tabulate_data (tril_indices_desc n) (flip v ++ [c])) as [f Hf];
    [apply NoDup_tril_indices_desc
    | unfold flip; rewrite length_app, length_rev; cbn [length]; lia |].
  unfold _from_product_to_mat. fold c.
  rewrite sorted_desc_tril_indices, Hf.
  rewrite (array_from_sparse_tabulated f (tril_indices_desc n) n)
    by (intros i j Hin; apply In_tril_indices_desc in Hin; lia).
  set (m := mk_mat n (fun i j => if mem i j (tril_indices_desc n)
                                 then f (i, j) else 0)).
  assert (Hsq : is_square n m) by apply is_square_mk_mat.
  assert (Hentry : forall i j, (j <= i)%nat -> (i < n)%nat ->
                   entry m i j = f (i, j)).
  { intros i j Hji Hi. unfold m. rewrite entry_mk_mat by lia.
    rewrite mem_tril_desc by lia.
    replace (j <=? i)%nat with true by (symmetry; apply Nat.leb_le; lia).
    reflexivity. }
  assert (Hm00 : entry m 0 0 = c).
  { rewrite Hentry by lia.
    destruct (last_tril_indices_desc n) as [l Hl]; [lia |].
    rewrite Hl, map_app in Hf. cbn [map] in Hf.
    apply app_inj_tail in Hf. symmetry. apply Hf. }
  exists m. split; [reflexivity |]. split; [exact Hsq |].
  split; [| split; [exact Hm00 |]].
  - intros i j Hij Hj. unfold m. rewrite entry_mk_mat by lia.
    rewrite mem_tril_desc by lia.
    replace (j <=? i)%nat with false by (symmetry; apply Nat.leb_gt; lia).
    reflexivity.
  - pose proof (flipped_data n m c) as Hdata.
    assert (Hmap : map (fun ij => entry m (fst ij) (snd ij))
                     (tril_indices_desc n) = map f (tril_indices_desc n)).
    { apply map_ext_in. intros [i j] Hin. apply In_tril_indices_desc in Hin.
      cbn [fst snd]. apply Hentry; lia. }
    rewrite Hmap, <- Hf in Hdata.
    specialize (Hdata ltac:(lia) Hsq Hm00).
    apply app_inj_tail in Hdata. destruct Hdata as [Hrev _].
    unfold flip in Hrev. apply rev_inj in Hrev.
    unfold diffeomorphism, flip.
    rewrite concatenate_nonempty, Hrev; [reflexivity |].
    rewrite length_map, length_seq. lia.
Qed.

(** X21 -- The other round trip: for [n >= 2] and a vector of [n(n+1)/2 - 1]
    entries, [inverse_diffeomorphism] returns a lower-triangular [n x n]
    matrix with [1] at [[0,0]] whose [diffeomorphism] is the vector, and
    [inverse_tangent_diffeomorphism] one with [0] at [[0,0]] whose
    [tangent_diffeomorphism] is the vector. *)
Theorem inverse_diffeo_round_trip (n : nat) (v : vec) :
  (2 <= n)%nat -> (length v + 1 = n * (n + 1) / 2)%nat ->
  (exists m : mat,
      inverse_diffeomorphism n v = Some m
      /\ is_square n m /\ is_lower_triangular n m /\ entry m 0 0 = 1
      /\ diffeomorphism n m = Some v)
  /\ (exists m : mat,
         inverse_tangent_diffeomorphism n v = Some m
         /\ is_square n m /\ is_lower_triangular n m /\ entry m 0 0 = 0
         /\ tangent_diffeomorphism n m = Some v).
Proof.
  intros Hn Hlen. split.
  - apply (from_product_to_mat_then_diffeomorphism n v true); assumption.
  - apply (from_product_to_mat_then_diffeomorphism n v false); assumption.
Qed.

(** *** Linearity *)

Lemma vzip_cons (op : R -> R -> R) (x y : R) (a b : vec) :
  vzip op (x :: a) (y :: b) = op x y :: vzip op a b.
Proof.
  unfold vzip, mk_vec. cbn [length seq map]. f_equal.
  rewrite <- seq_shift, map_map. apply map_ext. intros i. reflexivity.
Qed.

Lemma vzip_app (op : R -> R -> R) (a1 a2 b1 b2 : vec) :
  length a1 = length b1 ->
  vzip op (a1 ++ a2) (b1 ++ b2) = vzip op a1 b1 ++ vzip op a2 b2.
Proof.
  revert b1. induction a1 as [| x a1 IH]; intros [| y b1] H;
    try discriminate; [reflexivity |].
  cbn [app]. rewrite !vzip_cons, IH by (cbn in H; lia). reflexivity.
Qed.

Lemma vzip_concat (op : R -> R -> R) (ra rb : nat -> vec) (l : list nat) :
  (forall i, length (ra i) = length (rb i)) ->
  vzip op (concat (map ra l)) (concat (map rb l))
  = concat (map (fun i => vzip op (ra i) (rb i)) l).
Proof.
  intros H. induction l as [| i l IH]; [reflexivity |].
  cbn [map concat]. rewrite vzip_app, IH by apply H. reflexivity.
Qed.

Lemma vzip_tabulated {A : Type} (op : R -> R -> R) (f g : A -> R)
      (l : list A) :
  vzip op (map f l) (map g l) = map (fun x => op (f x) (g x)) l.
Proof.
  induction l as [| x l IH]; [reflexivity |].
  cbn [map]. rewrite vzip_cons, IH. reflexivity.
Qed.

Lemma mmap_square (f : R -> R) (n : nat) (m : mat) :
  is_square n m -> mmap f m = mk_mat n (fun i j => f (entry m i j)).
Proof.
  intros Hsq. rewrite <- (mk_mat_entry n m Hsq) at 1.
  apply SymmetricFacts.mmap_mk_mat.
Qed.

(** X22 -- [tangent_diffeomorphism] is linear: it maps the sum of two [n x n]
    matrices to the sum of their images and a scaled matrix to the scaled
    image. *)
Theorem tangent_diffeomorphism_linear (n : nat) (u v : mat) (c : R) :
  (2 <= n)%nat -> is_square n u -> is_square n v ->
  exists du dv : vec,
    tangent_diffeomorphism n u = Some du
    /\ tangent_diffeomorphism n v = Some dv
    /\ tangent_diffeomorphism n (mzip Rplus u v) = Some (vzip Rplus du dv)
    /\ tangent_diffeomorphism n (mmap (Rmult c) u) = Some (vmap (Rmult c) du).
Proof.
  intros Hn Hu Hv. unfold tangent_diffeomorphism.
  pose proof Hu as [Hlu _].
  assert (Hs : is_square n (mzip Rplus u v))
    by (unfold mzip; rewrite Hlu; apply is_square_mk_mat).
  assert (Hc : is_square n (mmap (Rmult c) u))
    by (rewrite (mmap_square _ n) by exact Hu; apply is_square_mk_mat).
  rewrite !diffeomorphism_tabulated by assumption.
  eexists. eexists. split; [reflexivity |]. split; [reflexivity |].
  split.
  - rewrite vzip_concat by (intros i; rewrite !length_rev, !length_map; reflexivity).
    apply f_equal. apply f_equal. apply map_ext_in. intros i Hi. apply in_seq in Hi.
    rewrite <- !map_rev, vzip_tabulated.
    apply map_ext_in. intros j Hj. apply in_rev, in_seq in Hj.
    apply entry_mzip; lia.
  - unfold vmap. rewrite concat_map, map_map. apply f_equal. apply f_equal.
    apply map_ext_in. intros i Hi. apply in_seq in Hi.
    rewrite <- !map_rev, map_map.
    apply map_ext_in. intros j Hj. apply in_rev, in_seq in Hj.
    rewrite (mmap_square _ n) by exact Hu. apply entry_mk_mat; lia.
Qed.

Lemma diffeomorphism_defined_from_size_two_witness :
  (length ([3; 1]%R : vec) + 1 = 2 * (2 + 1) / 2)%nat.
Proof.
  assert (Hsq : is_square 2 [[2; 0]; [1; 3]])
    by (split; [reflexivity | repeat constructor]).
  apply (proj2 (diffeomorphism_defined_from_size_two 2 [[2; 0]; [1; 3]] Hsq)).
  reflexivity.
Defined.

Lemma inverse_diffeo_round_trip_witness :
  exists m : mat,
    inverse_diffeomorphism 2 [3; 1] = Some m
    /\ is_square 2 m /\ is_lower_triangular 2 m /\ entry m 0 0 = 1
    /\ diffeomorphism 2 m = Some [3; 1].
Proof.
  apply (inverse_diffeo_round_trip 2 [3; 1]); [lia | reflexivity].
Defined.

Lemma tangent_diffeomorphism_linear_witness :
  exists du dv : vec,
    tangent_diffeomorphism 2 [[0; 0]; [1; 3]] = Some du
    /\ tangent_diffeomorphism 2 [[0; 0]; [4; 2]] = Some dv
    /\ tangent_diffeomorphism 2 (mzip Rplus [[0; 0]; [1; 3]] [[0; 0]; [4; 2]])
       = Some (vzip Rplus du dv)
    /\ tangent_diffeomorphism 2 (mmap (Rmult 5) [[0; 0]; [1; 3]])
       = Some (vmap (Rmult 5) du).
Proof.
  apply (tangent_diffeomorphism_linear 2); [lia | |];
    (split; [reflexivity | repeat constructor]).
Defined.

End DiffeoProperties.

(** * Properties of the Fisher metric on geometric distributions *)

Module GeometricMetricFacts.
Import Arrays GeometricMetric.
Local Open Scope R_scope.

Lemma tanh_exp (y : R) :
  tanh y = (Rtrigo_def.exp y - / Rtrigo_def.exp y)
           / (Rtrigo_def.exp y + / Rtrigo_def.exp y).
Proof.
  unfold tanh, sinh, cosh. rewrite exp_Ropp.
  pose proof (exp_pos y) as He.
  assert (0 < / Rtrigo_def.exp y) by (apply Rinv_0_lt_compat, He).
  field. split; nra.
Qed.

Lemma tanh_arctanh (x : R) : -1 < x -> x < 1 -> tanh (gs_arctanh x) = x.
Proof.
  intros H1 H2. unfold gs_arctanh.
  set (u := (1 + x) / (1 - x)).
  assert (Hu : 0 < u) by (apply Rdiv_lt_0_compat; lra).
  set (z := ln u / 2).
  assert (Hee : Rtrigo_def.exp z * Rtrigo_def.exp z = u).
  { rewrite <- exp_plus. replace (z + z) with (ln u) by (unfold z; field).
    apply exp_ln, Hu. }
  rewrite tanh_exp. pose proof (exp_pos z) as He.
  set (e := Rtrigo_def.exp z) in *. clearbody e.
  replace ((e - / e) / (e + / e)) with ((e * e - 1) / (e * e + 1))
    by (field; split; nra).
  rewrite Hee. unfold u. field. split; lra.
Qed.

Lemma arctanh_tanh (y : R) : gs_arctanh (tanh y) = y.
Proof.
  unfold gs_arctanh. rewrite tanh_exp. pose proof (exp_pos y) as He.
  assert (Hi : 0 < / Rtrigo_def.exp y) by (apply Rinv_0_lt_compat, He).
  replace ((1 + (Rtrigo_def.exp y - / Rtrigo_def.exp y)
                / (Rtrigo_def.exp y + / Rtrigo_def.exp y))
           / (1 - (Rtrigo_def.exp y - / Rtrigo_def.exp y)
                  / (Rtrigo_def.exp y + / Rtrigo_def.exp y)))
    with (Rtrigo_def.exp (y + y)).
  - rewrite ln_exp. field.
  - rewrite exp_plus. field. repeat split; nra.
Qed.

Lemma tanh_nonneg (y : R) : 0 <= y -> 0 <= tanh y.
Proof.
  intros Hy. rewrite tanh_exp. pose proof (exp_pos y) as He.
  assert (Hi : 0 < / Rtrigo_def.exp y) by (apply Rinv_0_lt_compat, He).
  assert (H1 : 1 <= Rtrigo_def.exp y).
  { destruct Hy as [Hy | <-]; [| rewrite exp_0; lra].
    rewrite <- exp_0. apply Rlt_le, exp_increasing, Hy. }
  assert (H2 : / Rtrigo_def.exp y <= 1).
  { rewrite <- Rinv_1. apply Rinv_le_contravar; lra. }
  apply Rmult_le_pos; [lra |]. apply Rlt_le, Rinv_0_lt_compat. lra.
Qed.

(** [sqrt (1 - p)] for a parameter [p] in [(0, 1]]. *)
Lemma sqrt_one_minus (p : R) :
  0 < p -> p <= 1 ->
  0 <= sqrt (1 - p) /\ sqrt (1 - p) < 1
  /\ sqrt (1 - p) * sqrt (1 - p) = 1 - p.
Proof.
  intros H0 H1. split; [apply sqrt_pos | split].
  - rewrite <- sqrt_1 at 2. apply sqrt_lt_1; lra.
  - apply sqrt_sqrt. lra.
Qed.

Lemma tanh_phase (p : R) :
  0 < p -> p <= 1 -> 1 - tanh (gs_arctanh (sqrt (1 - p))) ^ 2 = p.
Proof.
  intros H0 H1. destruct (sqrt_one_minus p H0 H1) as (Ha & Hb & Hc).
  rewrite tanh_arctanh by lra. cbn [pow]. lra.
Qed.

(** X23 -- For a base point in [(0, 1)] and a point in [(0, 1]],
    [exp (log pt base_point) base_point] is [pt]. *)
Theorem geometric_exp_log_inverse (pt base_point : R) :
  0 < base_point -> base_point < 1 -> 0 < pt -> pt <= 1 ->
  exp (log pt base_point) base_point = pt.
Proof.
  intros Hb0 Hb1 Hp0 Hp1. unfold exp, log.
  assert (Hs : 0 < sqrt (1 - base_point)) by (apply sqrt_lt_R0; lra).
  replace (- (-2 * base_point * sqrt (1 - base_point)
              * (gs_arctanh (sqrt (1 - pt))
                 - gs_arctanh (sqrt (1 - base_point))))
           / (2 * base_point * sqrt (1 - base_point))
           + gs_arctanh (sqrt (1 - base_point)))
    with (gs_arctanh (sqrt (1 - pt))) by (field; split; lra).
  apply tanh_phase; assumption.
Qed.

(** X24 -- For a base point in [(0, 1)], [log] undoes [exp] on every tangent
    vector that does not overshoot the boundary point [1], that is, on
    every [tangent_vec <= log 1 base_point]. *)
Theorem geometric_log_exp_inverse (tangent_vec base_point : R) :
  0 < base_point -> base_point < 1 ->
  tangent_vec <= log 1 base_point ->
  log (exp tangent_vec base_point) base_point = tangent_vec.
Proof.
  intros Hb0 Hb1 Ht. unfold exp, log in *.
  assert (Hs : 0 < sqrt (1 - base_point)) by (apply sqrt_lt_R0; lra).
  set (s := sqrt (1 - base_point)) in *.
  set (A := gs_arctanh s) in *.
  assert (HA0 : gs_arctanh (sqrt (1 - 1)) = 0).
  { replace (1 - 1) with 0 by lra. rewrite sqrt_0. unfold gs_arctanh.
    replace ((1 + 0) / (1 - 0)) with 1 by field. rewrite ln_1. lra. }
  rewrite HA0 in Ht.
  set (y := - tangent_vec / (2 * base_point * s) + A).
  assert (Hy : 0 <= y).
  { unfold y.
    assert (E : - tangent_vec / (2 * base_point * s) + A
                = (-2 * base_point * s * (0 - A) - tangent_vec)
                  / (2 * base_point * s)) by (field; split; lra).
    rewrite E. apply Rmult_le_pos; [lra |].
    apply Rlt_le, Rinv_0_lt_compat. nra. }
  replace (1 - (1 - tanh y ^ 2)) with (Rsqr (tanh y)) by (unfold Rsqr; cbn [pow]; lra).
  rewrite sqrt_Rsqr by (apply tanh_nonneg, Hy).
  rewrite arctanh_tanh. unfold y. field. split; lra.
Qed.

(** X25 -- At a base point in [(0, 1)] and for a point in [(0, 1]],
    [squared_dist] is the squared norm of [log pt base_point] under
    [metric_matrix]. *)
Theorem squared_dist_is_fisher_norm_of_log (pt base_point : R) :
  0 < base_point -> base_point < 1 -> 0 < pt -> pt <= 1 ->
  squared_dist pt base_point
  = metric_matrix base_point * log pt base_point ^ 2.
Proof.
  intros Hb0 Hb1 _ _. unfold squared_dist, metric_matrix, log.
  assert (Hs : 0 < sqrt (1 - base_point)) by (apply sqrt_lt_R0; lra).
  assert (Hss : sqrt (1 - base_point) * sqrt (1 - base_point) = 1 - base_point)
    by (apply sqrt_sqrt; lra).
  set (s := sqrt (1 - base_point)) in *.
  set (d := gs_arctanh (sqrt (1 - pt)) - gs_arctanh s).
  replace ((-2 * base_point * s * d) ^ 2)
    with (4 * base_point ^ 2 * (s * s) * d ^ 2) by (cbn [pow]; ring).
  rewrite Hss. field. split; lra.
Qed.

(** X26 -- The geodesic of [_geodesic_bvp] is at [initial_point] at time [0]
    and at [end_point] at time [1], and is the geodesic of [_geodesic_ivp]
    with initial velocity [log end_point initial_point]. *)
Theorem geodesic_bvp_endpoints (initial_point end_point : R) :
  0 < initial_point -> initial_point <= 1 -> 0 < end_point -> end_point <= 1 ->
  _geodesic_bvp initial_point end_point 0 = initial_point
  /\ _geodesic_bvp initial_point end_point 1 = end_point
  /\ (initial_point < 1 ->
      forall t : R,
        _geodesic_bvp initial_point end_point t
        = _geodesic_ivp initial_point (log end_point initial_point) t).
Proof.
  intros Hi0 Hi1 He0 He1. unfold _geodesic_bvp, _geodesic_ivp, _geodesic_path.
  split; [| split].
  - rewrite Rmult_0_r, Rplus_0_l. apply tanh_phase; assumption.
  - replace ((gs_arctanh (sqrt (1 - end_point))
              - gs_arctanh (sqrt (1 - initial_point))) * 1
             + gs_arctanh (sqrt (1 - initial_point)))
      with (gs_arctanh (sqrt (1 - end_point))) by ring.
    apply tanh_phase; assumption.
  - intros Hlt t. unfold log.
    assert (Hs : 0 < sqrt (1 - initial_point)) by (apply sqrt_lt_R0; lra).
    do 3 f_equal. field. split; lra.
Qed.

(** X27 -- Between two parameters in [(0, 1]] [squared_dist] is symmetric
    and non-negative, and it is zero exactly when they are equal. *)
Theorem geometric_squared_dist_is_a_metric (point_a point_b : R) :
  0 < point_a -> point_a <= 1 -> 0 < point_b -> point_b <= 1 ->
  squared_dist point_a point_b = squared_dist point_b point_a
  /\ 0 <= squared_dist point_a point_b
  /\ (squared_dist point_a point_b = 0 <-> point_a = point_b).
Proof.
  intros Ha0 Ha1 Hb0 Hb1.
  unfold squared_dist. split; [cbn [pow]; ring | split].
  - pose proof (pow2_ge_0 (gs_arctanh (sqrt (1 - point_a))
                           - gs_arctanh (sqrt (1 - point_b)))). lra.
  - split.
    + intros H.
      assert (E : gs_arctanh (sqrt (1 - point_a))
                  = gs_arctanh (sqrt (1 - point_b))).
      { cbn [pow] in H. nra. }
      destruct (sqrt_one_minus point_a Ha0 Ha1) as (A1 & A2 & A3).
      destruct (sqrt_one_minus point_b Hb0 Hb1) as (B1 & B2 & B3).
      apply (f_equal tanh) in E. rewrite !tanh_arctanh in E by lra.
      rewrite E in A3. lra.
    + intros <-. cbn [pow]. ring.
Qed.

Lemma geometric_exp_log_inverse_witness :
  exp (log (/ 4) (/ 2)) (/ 2) = / 4.
Proof. apply geometric_exp_log_inverse; lra. Defined.

Lemma geometric_log_exp_inverse_witness :
  log (exp (log 1 (/ 2)) (/ 2)) (/ 2) = log 1 (/ 2).
Proof. apply geometric_log_exp_inverse; lra. Defined.

Lemma squared_dist_is_fisher_norm_of_log_witness :
  squared_dist (/ 4) (/ 2) = metric_matrix (/ 2) * log (/ 4) (/ 2) ^ 2.
Proof. apply squared_dist_is_fisher_norm_of_log; lra. Defined.

Lemma geodesic_bvp_endpoints_witness :
  _geodesic_bvp (/ 2) (/ 4) 0 = / 2
  /\ _geodesic_bvp (/ 2) (/ 4) 1 = / 4
  /\ _geodesic_bvp (/ 2) (/ 4) (/ 3)
     = _geodesic_ivp (/ 2) (log (/ 4) (/ 2)) (/ 3).
Proof.
  destruct (geodesic_bvp_endpoints (/ 2) (/ 4)) as (H0 & H1 & H2);
    try lra.
  split; [exact H0 | split; [exact H1 |]].
  apply H2. lra.
Defined.

Lemma geometric_squared_dist_is_a_metric_witness :
  squared_dist (/ 4) (/ 2) = 0 <-> / 4 = / 2.
Proof.
  assert (H : 0 < / 4 /\ / 4 <= 1 /\ 0 < / 2 /\ / 2 <= 1) by lra.
  destruct H as (H1 & H2 & H3 & H4).
  exact (proj2 (proj2 (geometric_squared_dist_is_a_metric _ _ H1 H2 H3 H4))).
Defined.

End GeometricMetricFacts.
